(** * Circuit breaker and saga coordinator of fastapi-microservices-patterns

    A shallow embedding of [src/shared/circuit_breaker.py] and
    [src/services/orders/app/saga.py], followed by the properties of the
    two state machines.

    Conventions.
    - Python integers are [Z]; strings are [string]; dictionaries keyed by
      strings are [gmap string _]; lists are [list].
    - [time.monotonic()] is a reading of a clock kept in the world; readings
      and [recovery_timeout] are integers counted in clock ticks (the
      scenarios read a tick as one second).
    - Coroutines are run one after the other: [async with self._lock] is
      the identity on a sequential run, so the lock is not a field.
    - Mutation of [self] and of module globals is explicit state passing. *)

From stdpp Require Import base numbers option list strings gmap.

Local Open Scope Z_scope.

(** ** src/shared/circuit_breaker.py *)

Module Breaker.

Inductive CircuitState := CLOSED | OPEN | HALF_OPEN.

#[export] Instance CircuitState_eq_dec : EqDecision CircuitState.
Proof. solve_decision. Defined.

(** The value of [str(exc)]: all the breaker ever looks at. *)
Definition Exception := string.

Record CircuitBreaker := mkCircuitBreaker {
  name : string;
  failure_threshold : Z;
  recovery_timeout : Z;
  success_threshold : Z;
  _state : CircuitState;
  _failure_count : Z;
  _success_count : Z;
  _opened_at : option Z
}.

(** [CircuitBreaker.__init__], with the keyword defaults as [default_*]. *)
Definition default_failure_threshold : Z := 5.
Definition default_recovery_timeout : Z := 30.
Definition default_success_threshold : Z := 2.

Definition __init__ (nm : string) (ft rt st : Z) : CircuitBreaker :=
  {| name := nm;
     failure_threshold := ft;
     recovery_timeout := rt;
     success_threshold := st;
     _state := CLOSED;
     _failure_count := 0;
     _success_count := 0;
     _opened_at := None |}.

(** Field assignments [self._x = v]. *)
Definition set_state (s : CircuitState) (self : CircuitBreaker) : CircuitBreaker :=
  {| name := name self;
     failure_threshold := failure_threshold self;
     recovery_timeout := recovery_timeout self;
     success_threshold := success_threshold self;
     _state := s;
     _failure_count := _failure_count self;
     _success_count := _success_count self;
     _opened_at := _opened_at self |}.

Definition set_failure_count (n : Z) (self : CircuitBreaker) : CircuitBreaker :=
  {| name := name self;
     failure_threshold := failure_threshold self;
     recovery_timeout := recovery_timeout self;
     success_threshold := success_threshold self;
     _state := _state self;
     _failure_count := n;
     _success_count := _success_count self;
     _opened_at := _opened_at self |}.

Definition set_success_count (n : Z) (self : CircuitBreaker) : CircuitBreaker :=
  {| name := name self;
     failure_threshold := failure_threshold self;
     recovery_timeout := recovery_timeout self;
     success_threshold := success_threshold self;
     _state := _state self;
     _failure_count := _failure_count self;
     _success_count := n;
     _opened_at := _opened_at self |}.

Definition set_opened_at (t : option Z) (self : CircuitBreaker) : CircuitBreaker :=
  {| name := name self;
     failure_threshold := failure_threshold self;
     recovery_timeout := recovery_timeout self;
     success_threshold := success_threshold self;
     _state := _state self;
     _failure_count := _failure_count self;
     _success_count := _success_count self;
     _opened_at := t |}.

(** The [state] property. *)
Definition state (self : CircuitBreaker) : CircuitState := _state self.

(** Records handed to [logger]; [level] is the method called. *)
Inductive Level := INFO | WARNING | ERROR.

Inductive LogRecord :=
  | to_half_open (nm : string)
  | failure_no (nm : string) (count : Z) (exc : Exception)
  | to_open (nm : string) (count : Z)
  | to_closed (nm : string).

Definition level (r : LogRecord) : Level :=
  match r with
  | to_half_open _ => INFO
  | failure_no _ _ _ => WARNING
  | to_open _ _ => ERROR
  | to_closed _ => INFO
  end.

(** What surrounds a breaker: the monotonic clock, the number of times a
    wrapped operation has been awaited, and the log. *)
Record World := mkWorld {
  monotonic : Z;
  awaited : nat;
  records : list LogRecord
}.

Definition logger (r : LogRecord) (w : World) : World :=
  {| monotonic := monotonic w; awaited := awaited w; records := records w ++ [r] |}.

Definition sleep (d : Z) (w : World) : World :=
  {| monotonic := monotonic w + d; awaited := awaited w; records := records w |}.

(** The wrapped coroutine [func] with its arguments, as the breaker sees it:
    awaiting it takes [took] ticks and then returns a value or raises. *)
Inductive Outcome (T : Type) :=
  | Returns (v : T)
  | Raises (exc : Exception).
Arguments Returns {T} v.
Arguments Raises {T} exc.

Record Operation (T : Type) := mkOperation {
  outcome : Outcome T;
  took : Z
}.
Arguments mkOperation {T} outcome took.
Arguments outcome {T} o.
Arguments took {T} o.

Definition await {T} (func : Operation T) (w : World) : Outcome T * World :=
  (outcome func,
   {| monotonic := monotonic w + took func;
      awaited := S (awaited w);
      records := records w |}).

(** What a caller of [call] observes. [CircuitBreakerError] carries the
    breaker's name and the remaining cooldown of its message. *)
Inductive Raised :=
  | CircuitBreakerError (nm : string) (retry_in : Z)
  | Propagated (exc : Exception).

Inductive CallResult (T : Type) :=
  | Return (v : T)
  | Raise (e : Raised).
Arguments Return {T} v.
Arguments Raise {T} e.

(** [self._opened_at or 0]: [None] and [0] are both falsy. *)
Definition opened_at_or_0 (self : CircuitBreaker) : Z :=
  match _opened_at self with
  | Some t => if decide (t = 0) then 0 else t
  | None => 0
  end.

(** Lines 65-76 of [call]: the admission block under the lock. *)
Definition call_gate (self : CircuitBreaker) (w : World)
  : Raised + (CircuitBreaker * World) :=
  if decide (_state self = OPEN) then
    let elapsed := monotonic w - opened_at_or_0 self in
    if decide (elapsed < recovery_timeout self) then
      inl (CircuitBreakerError (name self) (recovery_timeout self - elapsed))
    else
      let self1 := set_state HALF_OPEN self in
      let self2 := set_success_count 0 self1 in
      inr (self2, logger (to_half_open (name self)) w)
  else inr (self, w).

Definition _on_failure (self : CircuitBreaker) (exc : Exception) (w : World)
  : CircuitBreaker * World :=
  let self1 := set_failure_count (_failure_count self + 1) self in
  let self2 := set_success_count 0 self1 in
  let w1 := logger (failure_no (name self2) (_failure_count self2) exc) w in
  if (bool_decide (_state self2 = CLOSED) || bool_decide (_state self2 = HALF_OPEN))
     && bool_decide (failure_threshold self2 <= _failure_count self2)
  then
    let self3 := set_state OPEN self2 in
    let self4 := set_opened_at (Some (monotonic w1)) self3 in
    (self4, logger (to_open (name self4) (_failure_count self4)) w1)
  else (self2, w1).

Definition _on_success (self : CircuitBreaker) (w : World)
  : CircuitBreaker * World :=
  let self1 := set_failure_count 0 self in
  if decide (_state self1 = HALF_OPEN) then
    let self2 := set_success_count (_success_count self1 + 1) self1 in
    if decide (success_threshold self2 <= _success_count self2) then
      (set_state CLOSED self2, logger (to_closed (name self2)) w)
    else (self2, w)
  else (self1, w).

Definition call {T} (self : CircuitBreaker) (func : Operation T) (w : World)
  : CallResult T * CircuitBreaker * World :=
  match call_gate self w with
  | inl e => (Raise e, self, w)
  | inr (self1, w1) =>
      match await func w1 with
      | (Raises exc, w2) =>
          let '(self2, w3) := _on_failure self1 exc w2 in
          (Raise (Propagated exc), self2, w3)
      | (Returns v, w2) =>
          let '(self2, w3) := _on_success self1 w2 in
          (Return v, self2, w3)
      end
  end.

(** [get_stats]: the dictionary with its four keys. *)
Record Stats := mkStats {
  stats_name : string;
  stats_state : CircuitState;
  stats_failure_count : Z;
  stats_success_count : Z
}.

Definition get_stats (self : CircuitBreaker) : Stats :=
  {| stats_name := name self;
     stats_state := _state self;
     stats_failure_count := _failure_count self;
     stats_success_count := _success_count self |}.

(** A caller's script: before each call the caller lets [wait] ticks
    pass, then calls the breaker with [op]. *)
Record Attempt (T : Type) := mkAttempt {
  wait : Z;
  op : Operation T
}.
Arguments mkAttempt {T} wait op.
Arguments wait {T} a.
Arguments op {T} a.

Definition attempt {T} (a : Attempt T) (sw : CircuitBreaker * World)
  : CallResult T * CircuitBreaker * World :=
  call (fst sw) (op a) (sleep (wait a) (snd sw)).

Fixpoint run {T} (script : list (Attempt T)) (sw : CircuitBreaker * World)
  : list (CallResult T) * (CircuitBreaker * World) :=
  match script with
  | [] => ([], sw)
  | a :: rest =>
      let '(r, self1, w1) := attempt a sw in
      let '(rs, sw2) := run rest (self1, w1) in
      (r :: rs, sw2)
  end.

Definition fails {T} (a : Attempt T) : bool :=
  match outcome (op a) with
  | Raises _ => true
  | Returns _ => false
  end.

Definition succeeds {T} (a : Attempt T) : bool := negb (fails a).

(** An empty world whose clock reads [t0]. *)
Definition boot (t0 : Z) : World :=
  {| monotonic := t0; awaited := 0; records := [] |}.

End Breaker.

(** ** src/services/orders/app/saga.py *)

Module Sagas.

(** JSON-like values: what [items] and step payloads hold. A dictionary is
    kept as its items in insertion order. *)
#[local] Unset Elimination Schemes.
Inductive Json :=
  | JNull
  | JBool (b : bool)
  | JInt (n : Z)
  | JStr (s : string)
  | JList (l : list Json)
  | JDict (kv : list (string * Json)).
#[local] Set Elimination Schemes.

Definition Dict := list (string * Json).

Inductive SagaStep := RESERVE_INVENTORY | CHARGE_PAYMENT | CONFIRM_ORDER.

(** [SagaStep] is a [str] enumeration: a member equals its value. *)
Definition value (s : SagaStep) : string :=
  match s with
  | RESERVE_INVENTORY => "reserve_inventory"
  | CHARGE_PAYMENT => "charge_payment"
  | CONFIRM_ORDER => "confirm_order"
  end.

Inductive SagaStatus :=
  | PENDING | RUNNING | COMPLETED | FAILED | COMPENSATING | COMPENSATED.

#[export] Instance SagaStatus_eq_dec : EqDecision SagaStatus.
Proof. solve_decision. Defined.

(** An entry of [saga["steps"]]. *)
Record StepRecord := mkStepRecord {
  step : string;
  success : bool;
  payload : Dict
}.

(** The dictionary stored per saga, key by key. *)
Record Saga := mkSaga {
  saga_id : string;
  order_id : string;
  user_id : Z;
  items : list Json;
  status : SagaStatus;
  steps : list StepRecord;
  compensations : list Json
}.

Definition set_status (s : SagaStatus) (saga : Saga) : Saga :=
  {| saga_id := saga_id saga;
     order_id := order_id saga;
     user_id := user_id saga;
     items := items saga;
     status := s;
     steps := steps saga;
     compensations := compensations saga |}.

Definition steps_append (r : StepRecord) (saga : Saga) : Saga :=
  {| saga_id := saga_id saga;
     order_id := order_id saga;
     user_id := user_id saga;
     items := items saga;
     status := status saga;
     steps := steps saga ++ [r];
     compensations := compensations saga |}.

Definition Exception := string.

Inductive Level := INFO | WARNING | ERROR.

#[export] Instance Level_eq_dec : EqDecision Level.
Proof. solve_decision. Defined.

Inductive LogRecord :=
  | created (sid oid : string)
  | unknown_saga (sid : string)
  | step_failed (st sid : string)
  | completed (sid : string)
  | released_inventory (oid : string)
  | issued_refund (oid : string)
  | compensation_failed (st : string) (e : Exception)
  | publish_failed (routing_key : string) (e : Exception).

Definition level (r : LogRecord) : Level :=
  match r with
  | created _ _ => INFO
  | unknown_saga _ => WARNING
  | step_failed _ _ => WARNING
  | completed _ => INFO
  | released_inventory _ => INFO
  | issued_refund _ => INFO
  | compensation_failed _ _ => ERROR
  | publish_failed _ _ => WARNING
  end.

(** A message on the [saga] topic exchange. The body is the payload that
    [json.dumps] serialises. *)
Record Message := mkMessage {
  routing_key : string;
  body : Dict
}.

(** The module globals and what lies outside the process.
    - [_saga_store]: the in-memory saga log.
    - [broker n]: what the message broker does on the [n]-th run of the
      body of [_publish] (counting from 0): [None] when the import, the
      connection, the channel, the exchange and the publish all go through,
      [Some e] when one of them raises [e].
    - [publishes]: the arguments of every call of [_publish], in order.
    - [exchange]: the messages the broker accepted, in order.
    - [records]: the log. *)
Record World := mkWorld {
  _saga_store : gmap string Saga;
  broker : nat -> option Exception;
  publishes : list Message;
  exchange : list Message;
  records : list LogRecord
}.

(** Coroutines: state passing over [World], with exceptions. *)
Inductive Result (A : Type) :=
  | Ok (a : A)
  | Err (e : Exception).
Arguments Ok {A} a.
Arguments Err {A} e.

Definition M (A : Type) : Type := World -> Result A * World.

#[export] Instance M_ret : MRet M := fun A a w => (Ok a, w).

#[export] Instance M_bind : MBind M := fun A B f m w =>
  match m w with
  | (Ok a, w1) => f a w1
  | (Err e, w1) => (Err e, w1)
  end.

(** [try: body except Exception as e: handler e]. *)
Definition try_except {A} (body : M A) (handler : Exception -> M A) : M A :=
  fun w =>
    match body w with
    | (Ok a, w1) => (Ok a, w1)
    | (Err e, w1) => handler e w1
    end.

(** [for x in l: body x]. *)
Fixpoint for_each {A} (l : list A) (body : A -> M unit) : M unit :=
  match l with
  | [] => mret tt
  | x :: rest => body x ;; for_each rest body
  end.

Definition logger (r : LogRecord) : M unit := fun w =>
  (Ok tt,
   {| _saga_store := _saga_store w;
      broker := broker w;
      publishes := publishes w;
      exchange := exchange w;
      records := records w ++ [r] |}).

(** A write to the dictionary that [_saga_store] holds under [sid]: the
    local variable [saga] and the store entry are the same object, so the
    write shows in both. *)
Definition assign (sid : string) (saga : Saga) : M Saga := fun w =>
  (Ok saga,
   {| _saga_store := <[sid := saga]> (_saga_store w);
      broker := broker w;
      publishes := publishes w;
      exchange := exchange w;
      records := records w |}).

(** The body of the [try] of [_publish]. *)
Definition exchange_publish (key : string) (pl : Dict) : M unit := fun w =>
  let m := {| routing_key := key; body := pl |} in
  match broker w (length (publishes w)) with
  | None =>
      (Ok tt,
       {| _saga_store := _saga_store w;
          broker := broker w;
          publishes := publishes w ++ [m];
          exchange := exchange w ++ [m];
          records := records w |})
  | Some e =>
      (Err e,
       {| _saga_store := _saga_store w;
          broker := broker w;
          publishes := publishes w ++ [m];
          exchange := exchange w;
          records := records w |})
  end.

Definition _publish (key : string) (pl : Dict) : M unit :=
  try_except (exchange_publish key pl)
             (fun e => logger (publish_failed key e)).

(** [create_saga]; [uuid4] is the string [str(uuid.uuid4())] drawn by
    the call. *)
Definition create_saga (uuid4 : string) (oid : string) (uid : Z)
    (its : list Json) : M string :=
  let sid := uuid4 in
  assign sid {| saga_id := sid;
                order_id := oid;
                user_id := uid;
                items := its;
                status := PENDING;
                steps := [];
                compensations := [] |} ;;
  logger (created sid oid) ;;
  mret sid.

(** [s["step"] for s in saga["steps"] if s["success"]]. *)
Definition successful_steps (saga : Saga) : list string :=
  step <$> filter (fun s => success s = true) (steps saga).

(** One turn of the loop of [_compensate]. *)
Definition compensate_step (saga : Saga) (st : string) : M unit :=
  try_except
    (if decide (st = value RESERVE_INVENTORY) then
       _publish "inventory.release"
         [("order_id", JStr (order_id saga)); ("items", JList (items saga))] ;;
       logger (released_inventory (order_id saga))
     else if decide (st = value CHARGE_PAYMENT) then
       _publish "payment.refund"
         [("order_id", JStr (order_id saga)); ("user_id", JInt (user_id saga))] ;;
       logger (issued_refund (order_id saga))
     else mret tt)
    (fun e => logger (compensation_failed st e)).

(** [_compensate saga]; [sid] is the key under which [saga] is stored. *)
Definition _compensate (sid : string) (saga : Saga) : M unit :=
  let completed_steps := successful_steps saga in
  for_each (reverse completed_steps) (compensate_step saga) ;;
  assign sid (set_status COMPENSATED saga) ;;
  mret tt.

Definition all_steps : gset string :=
  {[ value RESERVE_INVENTORY; value CHARGE_PAYMENT; value CONFIRM_ORDER ]}.

(** [payload or {}]. *)
Definition payload_or_empty (pl : option Dict) : Dict :=
  match pl with
  | Some d => d
  | None => []
  end.

(** [advance_saga]. A stored dictionary has its seven keys, so [not saga]
    holds of [None] only. *)
Definition advance_saga (sid : string) (st : string) (ok : bool)
    (pl : option Dict) : M unit := fun w =>
  match _saga_store w !! sid with
  | None => logger (unknown_saga sid) w
  | Some saga =>
      (saga ← assign sid (steps_append
                 {| step := st; success := ok; payload := payload_or_empty pl |}
                 saga);
       if negb ok then
         logger (step_failed st sid) ;;
         saga ← assign sid (set_status COMPENSATING saga);
         _compensate sid saga
       else
         let completed_steps : gset string := list_to_set (successful_steps saga) in
         if decide (all_steps ⊆ completed_steps) then
           assign sid (set_status COMPLETED saga) ;;
           logger (completed sid)
         else
           assign sid (set_status RUNNING saga) ;;
           mret tt) w
  end.

Definition get_saga (sid : string) (w : World) : option Saga :=
  _saga_store w !! sid.

(** A sequence of calls of [advance_saga]. *)
Record Advance := mkAdvance {
  adv_saga_id : string;
  adv_step : string;
  adv_success : bool;
  adv_payload : option Dict
}.

Definition advance (a : Advance) : M unit :=
  advance_saga (adv_saga_id a) (adv_step a) (adv_success a) (adv_payload a).

Definition advance_all (l : list Advance) : M unit := for_each l advance.

(** The world of a fresh process talking to the broker [b]. *)
Definition boot (b : nat -> option Exception) : World :=
  {| _saga_store := ∅; broker := b; publishes := []; exchange := []; records := [] |}.

(** World after running [m], whatever it returned. *)
Definition after {A} (m : M A) (w : World) : World := snd (m w).

End Sagas.


(** ** Vocabulary of the statements *)

Module BreakerSpec.
Import Breaker.

(** The configuration of a breaker: what no call ever writes. *)
Definition same_config (a b : CircuitBreaker) : Prop :=
  name a = name b /\
  failure_threshold a = failure_threshold b /\
  recovery_timeout a = recovery_timeout b /\
  success_threshold a = success_threshold b.

(** Where a run of raising calls keeps a breaker that started closed:
    closed, or open with at least [failure_threshold] failures counted. *)
Definition trail (self : CircuitBreaker) : Prop :=
  _state self = CLOSED \/
  (_state self = OPEN /\ failure_threshold self <= _failure_count self).

(** The breaker and the world that a script leaves behind. *)
Definition breaker_of {T} (r : list (CallResult T) * (CircuitBreaker * World))
  : CircuitBreaker := fst (snd r).

Definition world_of {T} (r : list (CallResult T) * (CircuitBreaker * World))
  : World := snd (snd r).

End BreakerSpec.

Module Scenario.
Import Breaker.

(** The breaker of the walk-through: threshold 3, cooldown 10, two probes. *)
Definition payments : CircuitBreaker := __init__ "payments" 3 10 2.

Definition failing (d : Z) : Attempt unit :=
  {| wait := d; op := {| outcome := Raises "503"; took := 0 |} |}.

Definition passing (d : Z) : Attempt unit :=
  {| wait := d; op := {| outcome := Returns tt; took := 0 |} |}.

Definition three_failures : list (Attempt unit) :=
  [failing 0; failing 0; failing 0].

Definition results_of (script : list (Attempt unit)) : list (CallResult unit) :=
  fst (run script (payments, boot 0)).

Definition breaker_after (script : list (Attempt unit)) : CircuitBreaker :=
  fst (snd (run script (payments, boot 0))).

Definition world_after (script : list (Attempt unit)) : World :=
  snd (snd (run script (payments, boot 0))).

End Scenario.

Module SagaSpec.
Import Sagas.

(** The message that undoes a step, if it has one. *)
Definition compensation_for (saga : Saga) (st : string) : list Message :=
  if decide (st = value RESERVE_INVENTORY) then
    [{| routing_key := "inventory.release";
        body := [("order_id", JStr (order_id saga));
                 ("items", JList (items saga))] |}]
  else if decide (st = value CHARGE_PAYMENT) then
    [{| routing_key := "payment.refund";
        body := [("order_id", JStr (order_id saga));
                 ("user_id", JInt (user_id saga))] |}]
  else [].

(** The messages of one compensation: latest successful step first. *)
Definition compensation_messages (saga : Saga) : list Message :=
  flat_map (compensation_for saga) (reverse (successful_steps saga)).

(** Of the messages [ms] handed to [_publish] from its [n]-th call on,
    those that the broker [b] accepts. *)
Fixpoint accepted (b : nat -> option Exception) (n : nat) (ms : list Message)
  : list Message :=
  match ms with
  | [] => []
  | m :: rest =>
      match b n with
      | None => m :: accepted b (S n) rest
      | Some _ => accepted b (S n) rest
      end
  end.

(** [emits w ms w']: from [w] to [w'] the calls of [_publish] were those
    for [ms], in this order, and the broker is the same. *)
Definition emits (w : World) (ms : list Message) (w' : World) : Prop :=
  broker w' = broker w /\
  publishes w' = publishes w ++ ms /\
  exchange w' = exchange w ++ accepted (broker w) (length (publishes w)) ms.

(** Every required step has a record with [success] true. *)
Definition required_done (saga : Saga) : Prop :=
  forall r : SagaStep,
    exists rec, rec ∈ steps saga /\ step rec = value r /\ success rec = true.

Definition count_key (key : string) (ms : list Message) : nat :=
  length (filter (fun m => routing_key m = key) ms).

(** Number of records of [st] with [success] true. *)
Definition count_done (st : string) (saga : Saga) : nat :=
  length (filter (fun r => success r = true /\ step r = st) (steps saga)).

(** The keys of a saga that [advance_saga] is not to write. *)
Definition same_frame (a b : Saga) : Prop :=
  saga_id a = saga_id b /\ order_id a = order_id b /\
  user_id a = user_id b /\ items a = items b /\
  compensations a = compensations b.

Definition status_of (sid : string) (w : World) : option SagaStatus :=
  status <$> get_saga sid w.

(** The record that [advance_saga] appends. *)
Definition record_of (st : string) (ok : bool) (pl : option Dict) : StepRecord :=
  {| step := st; success := ok; payload := payload_or_empty pl |}.

(** A broker that takes every message, and one that takes none. *)
Definition reliable : nat -> option Exception := fun _ => None.
Definition down : nat -> option Exception := fun _ => Some "ConnectionRefused".

End SagaSpec.

(** ** src/shared/circuit_breaker.py: the global registry *)

Module Registry.
Import Breaker.

(** The keyword arguments that [get_breaker] hands on to
    [CircuitBreaker.__init__]; an argument left out takes its default. *)
Record Kwargs := mkKwargs {
  kw_failure_threshold : option Z;
  kw_recovery_timeout : option Z;
  kw_success_threshold : option Z
}.

(** [CircuitBreaker(service, **kwargs)]. *)
Definition CircuitBreaker_of (service : string) (kwargs : Kwargs) : CircuitBreaker :=
  __init__ service
    (default default_failure_threshold (kw_failure_threshold kwargs))
    (default default_recovery_timeout (kw_recovery_timeout kwargs))
    (default default_success_threshold (kw_success_threshold kwargs)).

(** [get_breaker]: the breaker returned and the registry afterwards. *)
Definition get_breaker (service : string) (kwargs : Kwargs)
    (_registry : gmap string CircuitBreaker)
  : CircuitBreaker * gmap string CircuitBreaker :=
  match _registry !! service with
  | None =>
      let b := CircuitBreaker_of service kwargs in
      (b, <[service := b]> _registry)
  | Some b => (b, _registry)
  end.

(** [await get_breaker(service, **kwargs).call(func)]: the breaker called
    is the object that the registry holds, so what [call] writes to it
    shows in the registry. *)
Definition call_service {T} (service : string) (kwargs : Kwargs)
    (func : Operation T) (rw : gmap string CircuitBreaker * World)
  : CallResult T * (gmap string CircuitBreaker * World) :=
  let '(b, reg1) := get_breaker service kwargs (fst rw) in
  let '(r, b', w') := call b func (snd rw) in
  (r, (<[service := b']> reg1, w')).

(** A caller of one service through the registry: before each call it
    lets [wait] ticks pass and names its own keyword arguments. *)
Fixpoint run_service {T} (service : string)
    (script : list (Kwargs * Attempt T))
    (rw : gmap string CircuitBreaker * World)
  : list (CallResult T) * (gmap string CircuitBreaker * World) :=
  match script with
  | [] => ([], rw)
  | (kwargs, a) :: rest =>
      let '(r, rw1) :=
        call_service service kwargs (op a) (fst rw, sleep (wait a) (snd rw)) in
      let '(rs, rw2) := run_service service rest rw1 in
      (r :: rs, rw2)
  end.

End Registry.

(** ** src/shared/gateway.py *)

Module Gateway.

(** [os.environ.get(key, dflt)]. *)
Definition environ_get (environ : gmap string string) (key dflt : string)
  : string :=
  default dflt (environ !! key).

Definition SERVICES (environ : gmap string string) : gmap string string :=
  <["notifications" :=
      environ_get environ "NOTIFICATIONS_URL" "http://localhost:8003"]>
    (<["orders" := environ_get environ "ORDERS_URL" "http://localhost:8002"]>
       (<["users" := environ_get environ "USERS_URL" "http://localhost:8001"]>
          ∅)).

Definition ROUTES : list (string * string) :=
  [("/users", "users");
   ("/token", "users");
   ("/orders", "orders");
   ("/notifications", "notifications")].

(** The loop of [_resolve] over a route table. *)
Fixpoint resolve_in (routes : list (string * string)) (path : string)
  : option string :=
  match routes with
  | [] => None
  | (pfx, service) :: rest =>
      if String.prefix pfx path then Some service else resolve_in rest path
  end.

Definition _resolve (path : string) : option string := resolve_in ROUTES path.

(** The request as [proxy] reads it: [headers] is [dict(request.headers)],
    [query_params] is [dict(request.query_params)], [body] is what
    [request.body()] returns. *)
Record Request := mkRequest {
  method : string;
  headers : gmap string string;
  query_params : gmap string string;
  body : string
}.

(** The arguments of [client.request]. *)
Record Sent := mkSent {
  sent_method : string;
  sent_url : string;
  sent_headers : gmap string string;
  sent_content : string;
  sent_params : gmap string string
}.

(** An answer of a service: [resp.content], [resp.status_code] and
    [dict(resp.headers)], whose keys are in lower case. *)
Record Reply := mkReply {
  reply_content : string;
  reply_status_code : Z;
  reply_headers : gmap string string
}.

(** What [client.request] does: it returns a reply or raises. *)
Inductive Upstream :=
  | Replied (resp : Reply)
  | ConnectError
  | TimeoutException
  | OtherError (e : string).

Inductive LogRecord :=
  | proxied (meth full_path service : string) (status_code : Z).

(** [upstream n] is what the [n]-th request sent (from 0) meets. *)
Record World := mkWorld {
  environ : gmap string string;
  upstream : nat -> Sent -> Upstream;
  sent : list Sent;
  records : list LogRecord
}.

(** The [detail] of an [HTTPException], by its format string. *)
Inductive Detail :=
  | no_route_for (full_path : string)
  | service_unavailable (service : string)
  | service_timed_out (service : string).

Inductive ProxyResult :=
  | Response (content : string) (status_code : Z)
             (hdrs : gmap string string) (media_type : option string)
  | HTTPException (status_code : Z) (detail : Detail)
  | KeyError (key : string)
  | Unhandled (e : string).

Definition client_request (rq : Sent) (w : World) : Upstream * World :=
  (upstream w (length (sent w)) rq,
   {| environ := environ w;
      upstream := upstream w;
      sent := sent w ++ [rq];
      records := records w |}).

Definition logger_info (r : LogRecord) (w : World) : World :=
  {| environ := environ w;
     upstream := upstream w;
     sent := sent w;
     records := records w ++ [r] |}.

Definition proxy (path : string) (request : Request) (w : World)
  : ProxyResult * World :=
  let full_path := ("/" +:+ path)%string in
  match _resolve full_path with
  | None => (HTTPException 404 (no_route_for full_path), w)
  | Some service =>
      if decide (service = "") then
        (HTTPException 404 (no_route_for full_path), w)
      else
        match SERVICES (environ w) !! service with
        | None => (KeyError service, w)
        | Some base =>
            let target_url := (base +:+ full_path)%string in
            let hdrs := delete "host" (headers request) in
            let '(answer, w1) :=
              client_request
                {| sent_method := method request;
                   sent_url := target_url;
                   sent_headers := hdrs;
                   sent_content := body request;
                   sent_params := query_params request |} w in
            match answer with
            | ConnectError =>
                (HTTPException 503 (service_unavailable service), w1)
            | TimeoutException =>
                (HTTPException 504 (service_timed_out service), w1)
            | OtherError e => (Unhandled e, w1)
            | Replied resp =>
                (Response (reply_content resp) (reply_status_code resp)
                          (reply_headers resp)
                          (reply_headers resp !! "content-type"),
                 logger_info
                   (proxied (method request) full_path service
                            (reply_status_code resp)) w1)
            end
        end
  end.

End Gateway.

(** ** src/services/orders/app/main.py: authentication and [get_order] *)

Module Orders.

(** A row of the [orders] table. *)
Record OrderModel := mkOrderModel {
  id : string;
  user_id : Z;
  status : string;
  total_cents : Z;
  items_json : string;
  created_at : string
}.

Record OrderResponse := mkOrderResponse {
  resp_id : string;
  resp_user_id : Z;
  resp_status : string;
  resp_total_cents : Z;
  resp_items : list Sagas.Dict;
  resp_created_at : string
}.

(** What a handler raises. *)
Inductive Failure :=
  | HTTPException (status_code : Z) (detail : string)
  | KeyError (key : string)
  | Raised (e : string).

(** What [jwt.decode(token, JWT_SECRET, algorithms=...)] does: it returns
    the claims or raises. *)
Inductive Decoded :=
  | Claims (user : gmap string Sagas.Json)
  | ExpiredSignatureError
  | InvalidTokenError
  | DecodeError (e : string).

(** [s.removeprefix(p)]. *)
Definition removeprefix (p s : string) : string :=
  if String.prefix p s
  then String.substring (String.length p) (String.length s - String.length p) s
  else s.

(** [_require_user]; [jwt_decode] is the library call with the secret of
    the service. *)
Definition _require_user (jwt_decode : string -> Decoded)
    (authorization : option string) : Failure + gmap string Sagas.Json :=
  match authorization with
  | None => inl (HTTPException 401 "missing token")
  | Some a =>
      if bool_decide (a = "") || negb (String.prefix "Bearer " a) then
        inl (HTTPException 401 "missing token")
      else
        let token := removeprefix "Bearer " a in
        match jwt_decode token with
        | Claims user => inr user
        | ExpiredSignatureError => inl (HTTPException 401 "token expired")
        | InvalidTokenError => inl (HTTPException 401 "invalid token")
        | DecodeError e => inl (Raised e)
        end
  end.

(** [n != v] for an integer [n] and a decoded JSON value [v]; a JSON
    boolean is the integer 0 or 1. *)
Definition int_ne (n : Z) (v : Sagas.Json) : bool :=
  match v with
  | Sagas.JInt m => negb (bool_decide (n = m))
  | Sagas.JBool b => negb (bool_decide (n = if b then 1 else 0))
  | _ => true
  end.

(** [v != "admin"] for [v = user.get("role")]. *)
Definition not_admin (v : option Sagas.Json) : bool :=
  match v with
  | Some (Sagas.JStr s) => negb (bool_decide (s = "admin"))
  | _ => true
  end.

(** [get_order]. [db] is the [orders] table by primary key; [json_loads]
    is [json.loads] on the [items_json] column together with the check of
    [OrderResponse] that the items are a list of dictionaries. *)
Definition get_order (json_loads : string -> string + list Sagas.Dict)
    (order_id : string) (db : gmap string OrderModel)
    (user : gmap string Sagas.Json) : Failure + OrderResponse :=
  match db !! order_id with
  | None => inl (HTTPException 404 "order not found")
  | Some order =>
      match user !! "uid" with
      | None => inl (KeyError "uid")
      | Some uid =>
          if int_ne (user_id order) uid && not_admin (user !! "role") then
            inl (HTTPException 403 "access denied")
          else
            match json_loads (items_json order) with
            | inl e => inl (Raised e)
            | inr its =>
                inr {| resp_id := id order;
                       resp_user_id := user_id order;
                       resp_status := status order;
                       resp_total_cents := total_cents order;
                       resp_items := its;
                       resp_created_at := created_at order |}
            end
      end
  end.

(** [GET /orders/{order_id}]: the dependency [_require_user] runs on the
    [Authorization] header before the handler. *)
Definition get_order_route (jwt_decode : string -> Decoded)
    (json_loads : string -> string + list Sagas.Dict)
    (authorization : option string) (order_id : string)
    (db : gmap string OrderModel) : Failure + OrderResponse :=
  match _require_user jwt_decode authorization with
  | inl e => inl e
  | inr user => get_order json_loads order_id db user
  end.

End Orders.

(** ** Further vocabulary *)

Module BreakerInv.
Import Breaker.

(** What holds of a breaker made by [__init__] with thresholds of at
    least 1, after any calls made one after the other. *)
Definition healthy (self : CircuitBreaker) : Prop :=
  0 <= _failure_count self /\ 0 <= _success_count self /\
  (_state self = CLOSED -> _failure_count self < failure_threshold self) /\
  (_state self = OPEN ->
     failure_threshold self <= _failure_count self /\
     _success_count self = 0 /\ is_Some (_opened_at self)) /\
  (_state self = HALF_OPEN -> _success_count self < success_threshold self).

(** The outcome of the operation as [call] hands it to its caller. *)
Definition handed_on {T} (o : Outcome T) : CallResult T :=
  match o with
  | Returns v => Return v
  | Raises exc => Raise (Propagated exc)
  end.

Definition elapsed (self : CircuitBreaker) (w : World) : Z :=
  monotonic w - opened_at_or_0 self.

End BreakerInv.

Module SagaLog.
Import Sagas.

(** The records that the calls of [l] for the saga [sid] append. *)
Definition records_for (sid : string) (l : list Advance) : list StepRecord :=
  (fun a => {| step := adv_step a; success := adv_success a;
               payload := payload_or_empty (adv_payload a) |})
  <$> filter (fun a => adv_saga_id a = sid) l.

(** The status that a step log stands for. *)
Definition log_status (log : list StepRecord) : SagaStatus :=
  match last log with
  | None => PENDING
  | Some r =>
      if success r then
        if decide (all_steps ⊆
                   list_to_set (C := gset string)
                     (step <$> filter (fun s => success s = true) log))
        then COMPLETED else RUNNING
      else COMPENSATED
  end.

(** Every stored saga has the status that its step log stands for: what
    holds of the store between calls that run one after the other. *)
Definition log_consistent (w : World) : Prop :=
  forall (sid : string) (saga : Saga),
    get_saga sid w = Some saga -> status saga = log_status (steps saga).

End SagaLog.

Module RegistrySpec.
Import Breaker.

(** Every breaker of the registry is named after its key. *)
Definition named (reg : gmap string CircuitBreaker) : Prop :=
  forall (k : string) (b : CircuitBreaker), reg !! k = Some b -> name b = k.

End RegistrySpec.

Module OrdersSpec.
Import Orders.

(** The claim [uid] equals the owner of the order as Python compares
    them: it is that integer, or the boolean that stands for it. *)
Definition owns (order : OrderModel) (uid : Sagas.Json) : Prop :=
  uid = Sagas.JInt (user_id order) \/
  (uid = Sagas.JBool true /\ user_id order = 1) \/
  (uid = Sagas.JBool false /\ user_id order = 0).

(** The claims that let [get_order] hand an order out. *)
Definition may_read (order : OrderModel) (user : gmap string Sagas.Json) : Prop :=
  exists uid, user !! "uid" = Some uid /\
    (owns order uid \/ user !! "role" = Some (Sagas.JStr "admin")).

(** The response that stands for a row, with its items parsed. *)
Definition response_of (order : OrderModel) (its : list Sagas.Dict)
  : OrderResponse :=
  {| resp_id := id order;
     resp_user_id := user_id order;
     resp_status := status order;
     resp_total_cents := total_cents order;
     resp_items := its;
     resp_created_at := created_at order |}.

End OrdersSpec.

Module ScenarioAt.
Import Breaker Scenario.

(** The walk-through started when the clock reads [t0]. *)
Definition results_from (t0 : Z) (script : list (Attempt unit))
  : list (CallResult unit) :=
  fst (run script (payments, boot t0)).

Definition breaker_from (t0 : Z) (script : list (Attempt unit))
  : CircuitBreaker :=
  fst (snd (run script (payments, boot t0))).

Definition world_from (t0 : Z) (script : list (Attempt unit)) : World :=
  snd (snd (run script (payments, boot t0))).

(** The breaker of the walk-through as its third failure at [t0] leaves
    it, the world then, and the breaker after one successful probe. *)
Definition tripped (t0 : Z) : CircuitBreaker :=
  {| name := "payments"; failure_threshold := 3; recovery_timeout := 10;
     success_threshold := 2; _state := OPEN; _failure_count := 3;
     _success_count := 0; _opened_at := Some t0 |}.

Definition tripped_world (t0 : Z) : World :=
  {| monotonic := t0; awaited := 3;
     records := [failure_no "payments" 1 "503"; failure_no "payments" 2 "503";
                 failure_no "payments" 3 "503"; to_open "payments" 3] |}.

Definition probing (t0 : Z) : CircuitBreaker :=
  {| name := "payments"; failure_threshold := 3; recovery_timeout := 10;
     success_threshold := 2; _state := HALF_OPEN; _failure_count := 0;
     _success_count := 1; _opened_at := Some t0 |}.

End ScenarioAt.

(** ** Properties of the circuit breaker *)

Module BreakerFacts.
Import Breaker BreakerSpec Scenario.

(** The setters of the breaker reduce on every projection. *)
Ltac breaker_simpl :=
  cbn [set_state set_failure_count set_success_count set_opened_at
       name failure_threshold recovery_timeout success_threshold
       _state _failure_count _success_count _opened_at
       logger sleep monotonic awaited records fst snd] in *.

Lemma same_config_refl a : same_config a a.
Proof. by repeat split. Qed.

Lemma same_config_trans a b c :
  same_config a b -> same_config b c -> same_config a c.
Proof.
  intros (?&?&?&?) (?&?&?&?). repeat split; congruence.
Qed.

(** A rejected call: nothing is awaited and nothing is written. *)
Lemma call_rejected {T} (self : CircuitBreaker) (func : Operation T) (w : World) :
  _state self = OPEN ->
  monotonic w - opened_at_or_0 self < recovery_timeout self ->
  call self func w =
    (Raise (CircuitBreakerError (name self)
              (recovery_timeout self - (monotonic w - opened_at_or_0 self))),
     self, w).
Proof.
  intros Hs Hlt. unfold call, call_gate.
  rewrite decide_True by done. rewrite decide_True by done. done.
Qed.

(** An open breaker whose cooldown is over lets the call through as a probe. *)
Lemma gate_half_opens (self : CircuitBreaker) (w : World) :
  _state self = OPEN ->
  recovery_timeout self <= monotonic w - opened_at_or_0 self ->
  call_gate self w =
    inr (set_success_count 0 (set_state HALF_OPEN self),
         logger (to_half_open (name self)) w).
Proof.
  intros Hs Hge. unfold call_gate.
  rewrite decide_True by done. rewrite decide_False by lia. done.
Qed.

Lemma gate_not_open (self : CircuitBreaker) (w : World) :
  _state self <> OPEN -> call_gate self w = inr (self, w).
Proof. intros Hs. unfold call_gate. by rewrite decide_False. Qed.

(** The gate either rejects, leaving everything as it was, or admits. *)
Lemma gate_cases (self : CircuitBreaker) (w : World) :
  (exists e, call_gate self w = inl e /\ _state self = OPEN) \/
  (call_gate self w = inr (self, w) /\ _state self <> OPEN) \/
  (call_gate self w =
     inr (set_success_count 0 (set_state HALF_OPEN self),
          logger (to_half_open (name self)) w) /\ _state self = OPEN).
Proof.
  unfold call_gate. destruct (decide (_state self = OPEN)) as [Ho|Ho].
  - destruct (decide (_ < _)); [left; eauto | right; right; done].
  - right; left; done.
Qed.

(** [_on_failure] on a breaker that is not open. *)
Lemma on_failure_trips (self : CircuitBreaker) (exc : Exception) (w : World) :
  _state self <> OPEN ->
  failure_threshold self <= _failure_count self + 1 ->
  let self' := fst (_on_failure self exc w) in
  let w' := snd (_on_failure self exc w) in
  _state self' = OPEN /\ _opened_at self' = Some (monotonic w) /\
  monotonic w' = monotonic w /\ awaited w' = awaited w /\
  _failure_count self' = _failure_count self + 1 /\
  _success_count self' = 0 /\ same_config self self'.
Proof.
  intros Hs Hge. unfold _on_failure. breaker_simpl.
  rewrite (bool_decide_eq_true_2 (_ <= _)) by done.
  destruct (_state self) eqn:E; try done; cbn; breaker_simpl;
    repeat split; done.
Qed.

Lemma on_failure_below (self : CircuitBreaker) (exc : Exception) (w : World) :
  _failure_count self + 1 < failure_threshold self ->
  let self' := fst (_on_failure self exc w) in
  let w' := snd (_on_failure self exc w) in
  _state self' = _state self /\ _opened_at self' = _opened_at self /\
  monotonic w' = monotonic w /\ awaited w' = awaited w /\
  _failure_count self' = _failure_count self + 1 /\
  _success_count self' = 0 /\ same_config self self'.
Proof.
  intros Hlt. unfold _on_failure. breaker_simpl.
  rewrite (bool_decide_eq_false_2 (_ <= _)) by lia.
  rewrite andb_false_r. cbn. repeat split; done.
Qed.

Lemma on_failure_resets (self : CircuitBreaker) (exc : Exception) (w : World) :
  _success_count (fst (_on_failure self exc w)) = 0.
Proof.
  unfold _on_failure. breaker_simpl.
  destruct (_ && _); cbn; done.
Qed.

Lemma failing_call_trail {T} (self : CircuitBreaker) (func : Operation T)
    (w : World) (exc : Exception) :
  trail self -> outcome func = Raises exc ->
  exists e self' w',
    call self func w = (Raise e, self', w') /\
    trail self' /\ same_config self self' /\
    ((e = Propagated exc /\ awaited w' = S (awaited w) /\
      _failure_count self' = _failure_count self + 1 /\
      (failure_threshold self <= _failure_count self + 1 ->
       _state self' = OPEN /\ _opened_at self' = Some (monotonic w'))) \/
     ((exists nm r, e = CircuitBreakerError nm r) /\ awaited w' = awaited w /\
      _failure_count self' = _failure_count self)).
Proof.
  intros Htrail Hout. unfold call.
  destruct (gate_cases self w) as [(e & Hg & Ho)|[(Hg & Hno)|(Hg & Ho)]];
    rewrite Hg.
  - (* rejected *)
    exists e, self, w. split; [done|]. split; [done|].
    split; [apply same_config_refl|]. right.
    unfold call_gate in Hg. rewrite decide_True in Hg by done.
    destruct (decide (_ < _)); [|done]. injection Hg as <-. eauto.
  - (* closed *)
    destruct Htrail as [Hc|[Ho _]]; [|done].
    unfold await. rewrite Hout.
    destruct (_on_failure self exc _) as [self' w'] eqn:Hf.
    exists (Propagated exc), self', w'. split; [done|].
    destruct (Z_le_gt_dec (failure_threshold self) (_failure_count self + 1))
      as [Hge|Hlt].
    + pose proof (on_failure_trips self exc
        {| monotonic := monotonic w + took func; awaited := S (awaited w);
           records := records w |} Hno Hge) as Ht.
      rewrite Hf in Ht. cbn in Ht.
      destruct Ht as (Hs & Hat & Hm & Haw & Hfc & _ & Hcfg).
      split; [right; split; [done|]; destruct Hcfg as (_&<-&_); lia|].
      split; [done|]. left. repeat split; try done.
      rewrite Hm. done.
    + pose proof (on_failure_below self exc
        {| monotonic := monotonic w + took func; awaited := S (awaited w);
           records := records w |} ltac:(lia)) as Ht.
      rewrite Hf in Ht. cbn in Ht.
      destruct Ht as (Hs & Hat & Hm & Haw & Hfc & _ & Hcfg).
      split; [left; congruence|]. split; [done|]. left.
      repeat split; try done; lia.
  - (* probe *)
    destruct Htrail as [Hc|[_ Hge]]; [congruence|].
    unfold await. rewrite Hout.
    set (self1 := set_success_count 0 (set_state HALF_OPEN self)).
    set (w1 := {| monotonic := _ |}).
    destruct (_on_failure self1 exc w1) as [self' w'] eqn:Hf.
    exists (Propagated exc), self', w'. split; [done|].
    pose proof (on_failure_trips self1 exc w1) as Ht.
    rewrite Hf in Ht. cbn in Ht.
    destruct Ht as (Hs & Hat & Hm & Haw & Hfc & _ & Hcfg); [done|lia|].
    subst self1 w1. breaker_simpl. destruct Hcfg as (Hn&Hft&Hrt&Hst).
    breaker_simpl.
    split; [right; split; [done|]; rewrite <- Hft; lia|].
    split; [by repeat split|]. left. repeat split; try done.
    rewrite Hm. done.
Qed.


(** A run of raising calls that ends with an awaited one and has counted
    [failure_threshold] failures leaves the breaker open since that call. *)
Lemma failing_run_trips {T} (script : list (Attempt T)) :
  forall (self : CircuitBreaker) (w : World) rs self' w' exc,
    trail self ->
    Forall (fun a => fails a = true) script ->
    run script (self, w) = (rs, (self', w')) ->
    last rs = Some (Raise (Propagated exc)) ->
    failure_threshold self <=
      _failure_count self + (Z.of_nat (awaited w') - Z.of_nat (awaited w)) ->
    _state self' = OPEN /\ _opened_at self' = Some (monotonic w') /\
    same_config self self'.
Proof.
  induction script as [|a rest IH]; intros self w rs self' w' exc Htr Hall Hrun Hlast Hthr.
  - cbn in Hrun. simplify_eq.
  - apply Forall_cons in Hall as [Ha Hrest].
    cbn [run] in Hrun. unfold attempt in Hrun. cbn [fst snd] in Hrun.
    unfold fails in Ha. destruct (outcome (op a)) as [v|exc0] eqn:Hout; [done|].
    destruct (failing_call_trail self (op a) (sleep (wait a) w) exc0 Htr Hout)
      as (e & self1 & w1 & Hcall & Htr1 & Hcfg & Hcase).
    rewrite Hcall in Hrun.
    destruct (run rest (self1, w1)) as [rs1 [self2 w2]] eqn:Hrun1.
    simplify_eq.
    cbn [sleep awaited] in Hcase.
    destruct rest as [|b rest'].
    + cbn in Hrun1. simplify_eq. cbn in Hlast. simplify_eq.
      destruct Hcase as [(_ & Haw & Hfc & Hopen)|((nm & r & Hbad) & _)];
        [|done].
      destruct Hopen as [Hs Hat]; [lia|]. done.
    + assert (Hlast1 : last rs1 = Some (Raise (Propagated exc))).
      { cbn [run] in Hrun1.
        destruct (attempt b (self1, w1)) as [[r1 s1] w1'].
        destruct (run rest' (s1, w1')) as [rs2 sw2].
        simplify_eq. exact Hlast. }
      destruct (IH self1 w1 rs1 self' w' exc Htr1 Hrest Hrun1 Hlast1)
        as (Hs & Hat & Hcfg1).
      { destruct Hcfg as (_ & <- & _).
        destruct Hcase as [(_ & Haw & Hfc & _)|(_ & Haw & Hfc)];
          rewrite Hfc, Haw; lia. }
      repeat split; try done. all: eapply same_config_trans; eauto.
Qed.

(** The counters of a breaker made by [__init__] never go below 0. *)
Lemma call_counts_nonneg {T} (self : CircuitBreaker) (func : Operation T)
    (w : World) :
  0 <= _failure_count self /\ 0 <= _success_count self ->
  0 <= _failure_count (snd (fst (call self func w))) /\
  0 <= _success_count (snd (fst (call self func w))).
Proof.
  intros [Hf Hs]. unfold call, call_gate, await, _on_failure, _on_success.
  repeat (case_decide || case_match); simplify_eq; breaker_simpl;
    split; lia.
Qed.

Lemma run_counts_nonneg {T} (script : list (Attempt T)) :
  forall (self : CircuitBreaker) (w : World),
    0 <= _failure_count self /\ 0 <= _success_count self ->
    0 <= _failure_count (breaker_of (run script (self, w))) /\
    0 <= _success_count (breaker_of (run script (self, w))).
Proof.
  induction script as [|a rest IH]; intros self w Hnn; [done|].
  cbn [run]. unfold attempt. cbn [fst snd].
  pose proof (call_counts_nonneg self (op a) (sleep (wait a) w) Hnn) as H1.
  destruct (call self (op a) (sleep (wait a) w)) as [[r self1] w1].
  cbn [fst snd] in H1. specialize (IH self1 w1 H1).
  destruct (run rest (self1, w1)) as [rs [self2 w2]]. exact IH.
Qed.

(** C4. On a closed breaker, let a sequence of calls whose operations all
    raise end with an awaited call, the N-th awaited one, with N at least
    [failure_threshold]. Then the breaker is open, opened at the reading of
    the clock when that failure was recorded, and a call made less than
    [recovery_timeout] later raises [CircuitBreakerError] without awaiting
    the operation, the breaker and the world being left as they were. *)
Theorem closed_failures_open {T} (script : list (Attempt T))
    (self : CircuitBreaker) (w : World) rs self' w' exc :
  _state self = CLOSED ->
  0 <= _failure_count self ->
  Forall (fun a => fails a = true) script ->
  run script (self, w) = (rs, (self', w')) ->
  last rs = Some (Raise (Propagated exc)) ->
  failure_threshold self <= Z.of_nat (awaited w') - Z.of_nat (awaited w) ->
  state self' = OPEN /\
  _opened_at self' = Some (monotonic w') /\
  forall (d : Z) (func : Operation T),
    d < recovery_timeout self' ->
    call self' func (sleep d w') =
      (Raise (CircuitBreakerError (name self') (recovery_timeout self' - d)),
       self', sleep d w') /\
    awaited (sleep d w') = awaited w'.
Proof.
  intros Hc Hnn Hall Hrun Hlast HN.
  destruct (failing_run_trips script self w rs self' w' exc) as (Hs & Hat & _);
    try done.
  { by left. }
  { lia. }
  split; [done|]. split; [done|]. intros d func Hd.
  split; [|done].
  assert (Hel : monotonic (sleep d w') - opened_at_or_0 self' = d).
  { unfold opened_at_or_0. rewrite Hat. cbn [sleep monotonic].
    destruct (decide (monotonic w' = 0)); lia. }
  rewrite call_rejected; rewrite ?Hel; done.
Qed.

Lemma closed_failures_open_witness :
  state (breaker_after three_failures) = OPEN /\
  _opened_at (breaker_after three_failures) = Some 0 /\
  call (breaker_after three_failures) (op (passing 5))
       (sleep 5 (world_after three_failures)) =
    (Raise (CircuitBreakerError "payments" 5),
     breaker_after three_failures, sleep 5 (world_after three_failures)).
Proof.
  destruct (closed_failures_open three_failures payments (boot 0)
              (results_of three_failures) (breaker_after three_failures)
              (world_after three_failures) "503") as (Hs & Hat & Hnext).
  - reflexivity.
  - vm_compute. discriminate.
  - repeat constructor.
  - reflexivity.
  - reflexivity.
  - vm_compute. discriminate.
  - split; [exact Hs|]. split; [exact Hat|].
    destruct (Hnext 5 (op (passing 5))) as [Hcall _]; [reflexivity|].
    exact Hcall.
Defined.


(** A returning call on a half-open breaker counts one more success and
    closes the breaker when [success_threshold] is reached. *)
Lemma passing_call_half_open {T} (self : CircuitBreaker) (func : Operation T)
    (w : World) (v : T) :
  _state self = HALF_OPEN -> outcome func = Returns v ->
  exists self' w',
    call self func w = (Return v, self', w') /\
    awaited w' = S (awaited w) /\
    same_config self self' /\
    _success_count self' = _success_count self + 1 /\
    _failure_count self' = 0 /\
    _state self' =
      (if decide (success_threshold self <= _success_count self + 1)
       then CLOSED else HALF_OPEN).
Proof.
  intros Hs Hout. unfold call. rewrite gate_not_open by congruence.
  unfold await. rewrite Hout. unfold _on_success. breaker_simpl.
  rewrite decide_True by done. breaker_simpl.
  destruct (decide (success_threshold self <= _success_count self + 1));
    eexists _, _; (split; [reflexivity|]); breaker_simpl;
    repeat split; done.
Qed.

(** Returning calls on a half-open breaker: half-open below the
    threshold, closed when the count meets it. *)
Lemma half_open_successes {T} (script : list (Attempt T)) :
  forall (self : CircuitBreaker) (w : World),
    _state self = HALF_OPEN ->
    Forall (fun a => succeeds a = true) script ->
    let n := Z.of_nat (length script) in
    let self' := breaker_of (run script (self, w)) in
    (_success_count self + n < success_threshold self ->
     _state self' = HALF_OPEN /\ _success_count self' = _success_count self + n) /\
    (_success_count self + n = success_threshold self -> 0 < n ->
     _state self' = CLOSED) /\
    (_success_count self + n <= success_threshold self ->
     awaited (world_of (run script (self, w))) = (awaited w + length script)%nat).
Proof.
  induction script as [|a rest IH]; intros self w Hs Hall.
  - cbn. split; [intros _; split; [done|lia]|]. split; [lia|]. intros _. lia.
  - apply Forall_cons in Hall as [Ha Hrest].
    unfold succeeds, fails in Ha.
    destruct (outcome (op a)) as [v|exc] eqn:Hout; [|done].
    destruct (passing_call_half_open self (op a) (sleep (wait a) w) v Hs Hout)
      as (self1 & w1 & Hcall & Haw & Hcfg & Hsc & _ & Hst).
    cbn [run length]. unfold attempt. cbn [fst snd]. rewrite Hcall.
    destruct (run rest (self1, w1)) as [rs [self2 w2]] eqn:Hrun.
    unfold breaker_of, world_of. cbn [fst snd]. cbn [sleep awaited] in Haw.
    destruct Hcfg as (_ & _ & _ & Hthr).
    destruct (decide (success_threshold self <= _success_count self + 1))
      as [Hge|Hlt].
    + (* this call closes the breaker: it is the last of the script *)
      split; [lia|]. destruct rest as [|b rest'].
      * cbn in Hrun. simplify_eq. split; [intros _ _; done|]. intros _. cbn. lia.
      * cbn [length]. split; lia.
    + specialize (IH self1 w1 Hst Hrest). rewrite Hrun in IH.
      unfold breaker_of, world_of in IH. cbn [fst snd] in IH.
      destruct IH as (IH1 & IH2 & IH3).
      split; [|split].
      * intros Hn. destruct IH1 as [-> ->]; [lia|]. split; [done|lia].
      * intros Hn _. destruct rest as [|b rest'].
        { cbn in Hn. lia. }
        apply IH2; cbn [length] in *; lia.
      * intros Hn. rewrite IH3 by lia. lia.
Qed.

(** A call on an open breaker whose cooldown is over is the call on the
    half-open breaker that the gate makes of it. *)
Lemma call_after_cooldown {T} (self : CircuitBreaker) (func : Operation T)
    (w : World) :
  _state self = OPEN ->
  recovery_timeout self <= monotonic w - opened_at_or_0 self ->
  call self func w =
    call (set_success_count 0 (set_state HALF_OPEN self)) func
         (logger (to_half_open (name self)) w).
Proof.
  intros Hs Hge. unfold call at 1. rewrite gate_half_opens by done.
  unfold call. rewrite gate_not_open by (breaker_simpl; done). done.
Qed.

Lemma run_after_cooldown {T} (a : Attempt T) (rest : list (Attempt T))
    (self : CircuitBreaker) (w : World) :
  _state self = OPEN ->
  recovery_timeout self <= monotonic w + wait a - opened_at_or_0 self ->
  run (a :: rest) (self, w) =
    run (a :: rest) (set_success_count 0 (set_state HALF_OPEN self),
                     logger (to_half_open (name self)) w).
Proof.
  intros Hs Hge. cbn [run]. unfold attempt. cbn [fst snd].
  rewrite call_after_cooldown by done. reflexivity.
Qed.


(** The reading of [_opened_at] that the gate takes, when it is set. *)
Lemma opened_at_or_0_Some (self : CircuitBreaker) (t : Z) :
  _opened_at self = Some t -> opened_at_or_0 self = t.
Proof. intros H. unfold opened_at_or_0. rewrite H. by case_decide. Qed.

Lemma run_append {T} (l1 l2 : list (Attempt T)) (sw : CircuitBreaker * World) :
  run (l1 ++ l2) sw =
  (fst (run l1 sw) ++ fst (run l2 (snd (run l1 sw))),
   snd (run l2 (snd (run l1 sw)))).
Proof.
  revert sw. induction l1 as [|a l1 IH]; intros sw.
  - cbn. by destruct (run l2 sw).
  - cbn [run app]. destruct (attempt a sw) as [[r self1] w1].
    rewrite IH. destruct (run l1 (self1, w1)) as [rs1 sw1].
    cbn [fst snd]. done.
Qed.

(** The walk-through, call by call, from any reading [t0] of the clock. *)
Lemma three_failures_trip (t0 : Z) :
  run three_failures (payments, boot t0) =
    ([Raise (Propagated "503"); Raise (Propagated "503");
      Raise (Propagated "503")],
     (ScenarioAt.tripped t0, ScenarioAt.tripped_world t0)).
Proof. destruct t0; vm_compute; reflexivity. Qed.

Lemma rejected_5_after_opening (t0 : Z) :
  attempt (passing 5) (ScenarioAt.tripped t0, ScenarioAt.tripped_world t0) =
    (Raise (CircuitBreakerError "payments" 5), ScenarioAt.tripped t0,
     sleep 5 (ScenarioAt.tripped_world t0)).
Proof.
  unfold attempt. cbn [fst snd wait op passing].
  rewrite call_rejected.
  - rewrite (opened_at_or_0_Some _ t0) by reflexivity.
    cbn [name recovery_timeout ScenarioAt.tripped sleep monotonic
         ScenarioAt.tripped_world].
    replace (10 - (t0 + 5 - t0)) with 5 by lia. reflexivity.
  - reflexivity.
  - rewrite (opened_at_or_0_Some _ t0) by reflexivity.
    cbn [recovery_timeout ScenarioAt.tripped sleep monotonic
         ScenarioAt.tripped_world]. lia.
Qed.

Lemma probe_11_after_opening (t0 : Z) :
  exists w4,
    attempt (passing 6)
            (ScenarioAt.tripped t0, sleep 5 (ScenarioAt.tripped_world t0)) =
      (Return tt, ScenarioAt.probing t0, w4) /\
    monotonic w4 = t0 + 11 /\ awaited w4 = 4%nat.
Proof.
  unfold attempt. cbn [fst snd wait op passing].
  unfold call. rewrite gate_half_opens.
  - unfold await, _on_success. breaker_simpl.
    cbn [outcome took ScenarioAt.tripped _state _success_count
         success_threshold name _failure_count failure_threshold
         recovery_timeout _opened_at].
    rewrite decide_True by done. rewrite decide_False by lia.
    eexists. split; [reflexivity|].
    cbn [monotonic awaited ScenarioAt.tripped_world]. split; lia.
  - reflexivity.
  - rewrite (opened_at_or_0_Some _ t0) by reflexivity.
    cbn [recovery_timeout ScenarioAt.tripped sleep monotonic
         ScenarioAt.tripped_world]. lia.
Qed.

Lemma second_success_closes (t0 : Z) (w : World) :
  exists self' w',
    attempt (passing 0) (ScenarioAt.probing t0, w) = (Return tt, self', w') /\
    _state self' = CLOSED.
Proof.
  unfold attempt. cbn [fst snd wait op passing].
  destruct (passing_call_half_open (ScenarioAt.probing t0)
              {| outcome := Returns tt; took := 0 |} (sleep 0 w) tt)
    as (self' & w' & Hcall & _ & _ & _ & _ & Hst); [done|done|].
  exists self', w'. split; [exact Hcall|].
  rewrite Hst. by rewrite decide_True by (cbn; lia).
Qed.

(** C7. An open breaker that was opened at [t]. A call made while the
    clock is less than [recovery_timeout] past [t] is rejected and the
    operation is not awaited. A call made when the clock is at least
    [recovery_timeout] past [t]: its gate makes the breaker half-open with
    [_success_count] 0 and the operation is awaited, its outcome being the
    result of the call; when that call and the following ones return, the
    breaker stays half-open until [success_threshold] calls have returned,
    and is closed then. The walk-through with thresholds 3 and 2 and a
    cooldown of 10, started at any reading [t0] of the clock, behaves as
    told: open after three failures, opened at [t0]; a rejection at
    [t0 + 5]; a probe at [t0 + 11] that leaves the breaker half-open;
    closed by the next success. *)
Theorem open_probe_then_closed :
  (forall (T : Type) (self : CircuitBreaker) (w : World) (func : Operation T)
          (t : Z),
     _state self = OPEN ->
     _opened_at self = Some t ->
     (monotonic w - t < recovery_timeout self ->
      call self func w =
        (Raise (CircuitBreakerError (name self)
                  (recovery_timeout self - (monotonic w - t))), self, w)) /\
     (recovery_timeout self <= monotonic w - t ->
      (exists self1 w1,
         call_gate self w = inr (self1, w1) /\
         state self1 = HALF_OPEN /\ _success_count self1 = 0) /\
      (exists self' w',
         call self func w =
           (match outcome func with
            | Returns v => Return v
            | Raises exc => Raise (Propagated exc)
            end, self', w') /\
         awaited w' = S (awaited w)))) /\
  (forall (T : Type) (self : CircuitBreaker) (w : World)
          (a : Attempt T) (rest : list (Attempt T)) (t : Z),
     _state self = OPEN ->
     _opened_at self = Some t ->
     recovery_timeout self <= monotonic w + wait a - t ->
     Forall (fun b => succeeds b = true) (a :: rest) ->
     Z.of_nat (length (a :: rest)) = success_threshold self ->
     (forall j, (0 < j < length (a :: rest))%nat ->
        state (breaker_of (run (take j (a :: rest)) (self, w))) = HALF_OPEN) /\
     state (breaker_of (run (a :: rest) (self, w))) = CLOSED /\
     awaited (world_of (run (a :: rest) (self, w))) =
       (awaited w + length (a :: rest))%nat) /\
  (forall t0 : Z,
     ScenarioAt.results_from t0 three_failures =
       [Raise (Propagated "503"); Raise (Propagated "503");
        Raise (Propagated "503")] /\
     state (ScenarioAt.breaker_from t0 three_failures) = OPEN /\
     _opened_at (ScenarioAt.breaker_from t0 three_failures) = Some t0 /\
     monotonic (ScenarioAt.world_from t0 three_failures) = t0 /\
     last (ScenarioAt.results_from t0 (three_failures ++ [passing 5])) =
       Some (Raise (CircuitBreakerError "payments" 5)) /\
     awaited (ScenarioAt.world_from t0 (three_failures ++ [passing 5])) = 3%nat /\
     monotonic (ScenarioAt.world_from t0
                  (three_failures ++ [passing 5; passing 6])) = t0 + 11 /\
     last (ScenarioAt.results_from t0
             (three_failures ++ [passing 5; passing 6])) = Some (Return tt) /\
     awaited (ScenarioAt.world_from t0
                (three_failures ++ [passing 5; passing 6])) = 4%nat /\
     get_stats (ScenarioAt.breaker_from t0
                  (three_failures ++ [passing 5; passing 6])) =
       {| stats_name := "payments"; stats_state := HALF_OPEN;
          stats_failure_count := 0; stats_success_count := 1 |} /\
     state (ScenarioAt.breaker_from t0
              (three_failures ++ [passing 5; passing 6; passing 0])) = CLOSED).
Proof.
  split; [|split].
  - intros T self w func t Hs Hat.
    pose proof (opened_at_or_0_Some self t Hat) as Hread. split.
    + intros Hlt. rewrite call_rejected by (rewrite ?Hread; done).
      by rewrite Hread.
    + intros Hge. rewrite <- Hread in Hge. split.
      * eexists _, _. rewrite gate_half_opens by done. by breaker_simpl.
      * unfold call. rewrite gate_half_opens by done. unfold await.
        destruct (outcome func) as [v|exc].
        -- destruct (_on_success _ _) as [self' w'] eqn:Hf.
           exists self', w'. split; [done|].
           unfold _on_success in Hf. breaker_simpl.
           repeat case_decide; simplify_eq; done.
        -- destruct (_on_failure _ _ _) as [self' w'] eqn:Hf.
           exists self', w'. split; [done|].
           unfold _on_failure in Hf. breaker_simpl.
           destruct (_ && _); simplify_eq; done.
  - intros T self w a rest t Hs Hat Hge Hall Hlen.
    rewrite <- (opened_at_or_0_Some self t Hat) in Hge.
    set (self1 := set_success_count 0 (set_state HALF_OPEN self)).
    set (w1 := logger (to_half_open (name self)) w).
    assert (Hs1 : _state self1 = HALF_OPEN) by done.
    split; [|split].
    + intros j Hj. destruct j as [|j]; [lia|]. cbn [take].
      rewrite run_after_cooldown by done. fold self1 w1.
      assert (Hall' : Forall (fun b => succeeds b = true) (a :: take j rest)).
      { apply Forall_cons in Hall as [Ha Hrest].
        apply Forall_cons. split; [done|]. by apply Forall_take. }
      destruct (half_open_successes (a :: take j rest) self1 w1 Hs1 Hall')
        as (Hlt & _ & _).
      apply Hlt. subst self1. breaker_simpl. cbn [length] in *.
      rewrite length_take. lia.
    + rewrite run_after_cooldown by done. fold self1 w1.
      destruct (half_open_successes (a :: rest) self1 w1 Hs1 Hall)
        as (_ & Heq & _).
      apply Heq; subst self1; breaker_simpl; cbn [length] in *; lia.
    + rewrite run_after_cooldown by done. fold self1 w1.
      destruct (half_open_successes (a :: rest) self1 w1 Hs1 Hall)
        as (_ & _ & Haw).
      rewrite Haw; [done|]. subst self1. breaker_simpl. lia.
  - intros t0.
    unfold ScenarioAt.results_from, ScenarioAt.breaker_from,
      ScenarioAt.world_from.
    rewrite !run_append, !three_failures_trip. cbn [fst snd].
    destruct (probe_11_after_opening t0) as (w4 & Hprobe & Hclock & Hcount).
    destruct (second_success_closes t0 w4) as (b5 & w5 & Hclose & Hclosed).
    cbn [run]. rewrite !rejected_5_after_opening, !Hprobe, !Hclose.
    cbn [fst snd app last]. rewrite Hclock, Hcount.
    repeat split; done.
Qed.

Lemma open_probe_then_closed_witness :
  state (breaker_of (run (passing 11 :: [passing 0])
                         (ScenarioAt.tripped 100,
                          ScenarioAt.tripped_world 100))) = CLOSED /\
  call (ScenarioAt.tripped 100) (op (passing 5))
       (sleep 5 (ScenarioAt.tripped_world 100)) =
    (Raise (CircuitBreakerError (name (ScenarioAt.tripped 100))
              (recovery_timeout (ScenarioAt.tripped 100) -
               (monotonic (sleep 5 (ScenarioAt.tripped_world 100)) - 100))),
     ScenarioAt.tripped 100, sleep 5 (ScenarioAt.tripped_world 100)) /\
  (exists self1 w1,
     call_gate (ScenarioAt.tripped 100)
               (sleep 11 (ScenarioAt.tripped_world 100)) = inr (self1, w1) /\
     state self1 = HALF_OPEN /\ _success_count self1 = 0).
Proof.
  destruct open_probe_then_closed as (Hgate & Hrun & _). split; [|split].
  - destruct (Hrun unit (ScenarioAt.tripped 100)
                (ScenarioAt.tripped_world 100) (passing 11) [passing 0] 100)
      as (_ & Hclosed & _).
    + reflexivity.
    + reflexivity.
    + vm_compute. discriminate.
    + repeat constructor.
    + reflexivity.
    + exact Hclosed.
  - destruct (Hgate unit (ScenarioAt.tripped 100)
                (sleep 5 (ScenarioAt.tripped_world 100)) (op (passing 5)) 100)
      as (Hreject & _).
    + reflexivity.
    + reflexivity.
    + apply Hreject. vm_compute. reflexivity.
  - destruct (Hgate unit (ScenarioAt.tripped 100)
                (sleep 11 (ScenarioAt.tripped_world 100)) (op (passing 11)) 100)
      as (_ & Hadmit).
    + reflexivity.
    + reflexivity.
    + destruct Hadmit as (Hg & _); [vm_compute; discriminate|]. exact Hg.
Defined.

(** C9, as the code has it. [_success_count] is 0 after every call whose
    operation raised, and when the gate makes an open breaker half-open.
    The call that closes a half-open breaker does not reset it: the
    snapshot then reports the count reached, which is at least
    [success_threshold]. *)
Theorem success_count_resets :
  (forall (T : Type) (self : CircuitBreaker) (func : Operation T) (w : World)
          exc self' w',
     call self func w = (Raise (Propagated exc), self', w') ->
     stats_success_count (get_stats self') = 0) /\
  (forall (self : CircuitBreaker) (w : World) self1 w1,
     _state self = OPEN ->
     call_gate self w = inr (self1, w1) ->
     state self1 = HALF_OPEN /\ stats_success_count (get_stats self1) = 0) /\
  (forall (T : Type) (self : CircuitBreaker) (func : Operation T) (w : World)
          r self' w',
     _state self = HALF_OPEN ->
     call self func w = (r, self', w') ->
     state self' = CLOSED ->
     stats_success_count (get_stats self') = _success_count self + 1 /\
     success_threshold self <= stats_success_count (get_stats self')).
Proof.
  split; [|split].
  - intros T self func w exc self' w' Hcall. unfold call in Hcall.
    destruct (call_gate self w) as [e|[self1 w1]] eqn:Hg.
    { unfold call_gate in Hg. repeat case_decide; simplify_eq. }
    destruct (await func w1) as [[v|exc0] w2].
    + destruct (_on_success self1 w2). simplify_eq.
    + pose proof (on_failure_resets self1 exc0 w2) as Hz.
      destruct (_on_failure self1 exc0 w2). by simplify_eq.
  - intros self w self1 w1 Hs Hg. unfold call_gate in Hg.
    rewrite decide_True in Hg by done.
    destruct (decide (_ < _)); simplify_eq. done.
  - intros T self func w r self' w' Hs Hcall Hclosed. unfold call in Hcall.
    rewrite gate_not_open in Hcall by congruence.
    destruct (await func w) as [[v|exc] w2].
    + unfold _on_success in Hcall. breaker_simpl.
      rewrite decide_True in Hcall by done. breaker_simpl.
      destruct (decide (success_threshold self <= _success_count self + 1));
        simplify_eq; cbn in *; [done|congruence].
    + unfold state in Hclosed. unfold _on_failure in Hcall. breaker_simpl.
      destruct (_ && _); simplify_eq; cbn in *; congruence.
Qed.

Lemma success_count_resets_witness :
  stats_success_count
    (get_stats (breaker_after (three_failures ++ [passing 11; passing 0]))) = 2 /\
  stats_success_count (get_stats (breaker_after three_failures)) = 0.
Proof.
  destruct success_count_resets as (Hfail & _ & Hclose). split.
  - destruct (Hclose unit (breaker_after (three_failures ++ [passing 11]))
                (op (passing 0))
                (world_after (three_failures ++ [passing 11]))
                (Return tt)
                (breaker_after (three_failures ++ [passing 11; passing 0]))
                (world_after (three_failures ++ [passing 11; passing 0])))
      as [Heq _].
    + vm_compute. reflexivity.
    + vm_compute. reflexivity.
    + vm_compute. reflexivity.
    + rewrite Heq. vm_compute. reflexivity.
  - apply (Hfail unit (breaker_after [failing 0; failing 0])
             (op (failing 0)) (world_after [failing 0; failing 0])
             "503" (breaker_after three_failures)
             (world_after three_failures)).
    vm_compute. reflexivity.
Defined.

(** C9, as stated, fails: a call that takes a breaker out of the half-open
    state need not leave [success_count] at 0 in the snapshot. *)
Lemma success_count_kept_on_close :
  ~ (forall (self : CircuitBreaker) (func : Operation unit) (w : World)
            r self' w',
       _state self = HALF_OPEN ->
       call self func w = (r, self', w') ->
       state self' <> HALF_OPEN ->
       stats_success_count (get_stats self') = 0).
Proof.
  intros H.
  assert (Hzero : stats_success_count
            (get_stats (breaker_after (three_failures ++ [passing 11; passing 0])))
          = 0).
  { apply (H (breaker_after (three_failures ++ [passing 11]))
             (op (passing 0))
             (world_after (three_failures ++ [passing 11]))
             (Return tt)
             (breaker_after (three_failures ++ [passing 11; passing 0]))
             (world_after (three_failures ++ [passing 11; passing 0]))).
    - vm_compute. reflexivity.
    - vm_compute. reflexivity.
    - vm_compute. discriminate. }
  vm_compute in Hzero. discriminate.
Qed.

(** C1 at a concrete run. With thresholds 3 and 2: three failures open the
    breaker, the probe after the cooldown returns and leaves it half-open
    with the failure count back at 0; the next operation raises, and the
    breaker is still half-open, with one failure counted. *)
Theorem half_open_failure_after_success_stays_half_open :
  get_stats (breaker_after (three_failures ++ [passing 11])) =
    {| stats_name := "payments"; stats_state := HALF_OPEN;
       stats_failure_count := 0; stats_success_count := 1 |} /\
  last (results_of (three_failures ++ [passing 11; failing 1])) =
    Some (Raise (Propagated "503")) /\
  get_stats (breaker_after (three_failures ++ [passing 11; failing 1])) =
    {| stats_name := "payments"; stats_state := HALF_OPEN;
       stats_failure_count := 1; stats_success_count := 0 |} /\
  state (breaker_after (three_failures ++ [passing 11; failing 1])) <> OPEN.
Proof.
  vm_compute. repeat split; try reflexivity. discriminate.
Qed.

End BreakerFacts.

(** ** Properties of the saga coordinator *)

Module SagaFacts.
Import Sagas SagaSpec.

Ltac saga_simpl :=
  cbn [set_status steps_append saga_id order_id user_id items status steps
       compensations _saga_store broker publishes exchange records
       step success payload fst snd] in *.

Ltac run_m :=
  unfold mbind, M_bind, mret, M_ret, try_except, logger, assign in *;
  saga_simpl.

Lemma accepted_app b n ms1 ms2 :
  accepted b n (ms1 ++ ms2) =
  accepted b n ms1 ++ accepted b (n + length ms1) ms2.
Proof.
  revert n. induction ms1 as [|m ms1 IH]; intros n; cbn.
  - by rewrite Nat.add_0_r.
  - rewrite IH, Nat.add_succ_r. by destruct (b n).
Qed.

Lemma emits_nil w w' :
  broker w' = broker w -> publishes w' = publishes w ->
  exchange w' = exchange w -> emits w [] w'.
Proof.
  intros Hb Hp He. unfold emits. cbn. by rewrite !app_nil_r.
Qed.

Lemma emits_app w ms1 w1 ms2 w2 :
  emits w ms1 w1 -> emits w1 ms2 w2 -> emits w (ms1 ++ ms2) w2.
Proof.
  intros (Hb1 & Hp1 & He1) (Hb2 & Hp2 & He2). unfold emits.
  split; [congruence|]. split.
  - rewrite Hp2, Hp1. by rewrite app_assoc.
  - rewrite He2, He1, Hb1, Hp1, accepted_app, length_app.
    by rewrite app_assoc.
Qed.

(** [_publish] swallows whatever the broker raises. *)
Lemma publish_emits key pl w :
  exists w',
    _publish key pl w = (Ok tt, w') /\
    _saga_store w' = _saga_store w /\
    emits w [{| routing_key := key; body := pl |}] w'.
Proof.
  unfold _publish, exchange_publish, try_except, emits. cbn [accepted].
  destruct (broker w (length (publishes w))) as [e|];
    eexists; (split; [reflexivity|]); run_m;
    rewrite ?app_nil_r; done.
Qed.

Lemma compensate_step_emits saga st w :
  exists w',
    compensate_step saga st w = (Ok tt, w') /\
    _saga_store w' = _saga_store w /\
    emits w (compensation_for saga st) w'.
Proof.
  unfold compensate_step, compensation_for.
  destruct (decide (st = value RESERVE_INVENTORY)) as [?|?];
    [|destruct (decide (st = value CHARGE_PAYMENT)) as [?|?]].
  - destruct (publish_emits "inventory.release"
       [("order_id", JStr (order_id saga)); ("items", JList (items saga))] w)
      as (w1 & Hp & Hs & He).
    unfold try_except, mbind, M_bind. rewrite Hp.
    eexists. split; [reflexivity|]. run_m. split; [done|].
    destruct He as (?&?&?). done.
  - destruct (publish_emits "payment.refund"
       [("order_id", JStr (order_id saga)); ("user_id", JInt (user_id saga))] w)
      as (w1 & Hp & Hs & He).
    unfold try_except, mbind, M_bind. rewrite Hp.
    eexists. split; [reflexivity|]. run_m. split; [done|].
    destruct He as (?&?&?). done.
  - exists w. split; [reflexivity|]. split; [done|]. by apply emits_nil.
Qed.

Lemma for_each_compensate_emits saga l :
  forall w, exists w',
    for_each l (compensate_step saga) w = (Ok tt, w') /\
    _saga_store w' = _saga_store w /\
    emits w (flat_map (compensation_for saga) l) w'.
Proof.
  induction l as [|st l IH]; intros w.
  - exists w. split; [reflexivity|]. split; [done|]. by apply emits_nil.
  - destruct (compensate_step_emits saga st w) as (w1 & H1 & Hs1 & He1).
    destruct (IH w1) as (w2 & H2 & Hs2 & He2).
    exists w2. cbn [for_each flat_map]. unfold mbind, M_bind.
    rewrite H1, H2. split; [done|]. split; [congruence|].
    eapply emits_app; eauto.
Qed.

Lemma compensate_spec sid saga w :
  exists w',
    _compensate sid saga w = (Ok tt, w') /\
    _saga_store w' = <[sid := set_status COMPENSATED saga]> (_saga_store w) /\
    emits w (compensation_messages saga) w'.
Proof.
  destruct (for_each_compensate_emits saga (reverse (successful_steps saga)) w)
    as (w1 & H1 & Hs1 & (Hb & Hp & He)).
  unfold _compensate. unfold mbind at 1, M_bind at 1. rewrite H1.
  eexists. split; [reflexivity|]. run_m. rewrite Hs1. done.
Qed.

Lemma successful_steps_append r saga :
  successful_steps (steps_append r saga) =
  successful_steps saga ++ (if success r then [step r] else []).
Proof.
  unfold successful_steps. saga_simpl. rewrite filter_app, fmap_app.
  f_equal. rewrite filter_cons, filter_nil.
  destruct (success r); case_decide; done.
Qed.

(** The three ways through [advance_saga]. *)
Lemma advance_saga_unknown sid st ok pl w :
  _saga_store w !! sid = None ->
  exists w',
    advance_saga sid st ok pl w = (Ok tt, w') /\
    _saga_store w' = _saga_store w /\ emits w [] w'.
Proof.
  intros Hn. unfold advance_saga. rewrite Hn. eexists.
  split; [reflexivity|]. run_m. split; [done|]. by apply emits_nil.
Qed.

Lemma advance_saga_failed sid st pl w saga :
  _saga_store w !! sid = Some saga ->
  exists w',
    advance_saga sid st false pl w = (Ok tt, w') /\
    _saga_store w' =
      <[sid := set_status COMPENSATED (steps_append (record_of st false pl) saga)]>
        (_saga_store w) /\
    emits w (compensation_messages saga) w'.
Proof.
  intros Hs. unfold advance_saga. rewrite Hs. cbn [negb].
  set (saga1 := steps_append _ saga).
  set (w1 := {| _saga_store := <[sid:=set_status COMPENSATING saga1]>
                                 (<[sid:=saga1]> (_saga_store w));
                broker := broker w; publishes := publishes w;
                exchange := exchange w;
                records := records w ++ [step_failed st sid] |}).
  destruct (compensate_spec sid (set_status COMPENSATING saga1) w1)
    as (w2 & Hc & Hst & He).
  exists w2. split.
  - run_m. exact Hc.
  - split.
    + rewrite Hst. subst w1. saga_simpl. rewrite !insert_insert_eq. done.
    + assert (Hm : compensation_messages (set_status COMPENSATING saga1)
                   = compensation_messages saga).
      { unfold compensation_messages.
        change (successful_steps (set_status COMPENSATING saga1))
          with (successful_steps saga1).
        subst saga1. rewrite successful_steps_append. cbn.
        rewrite app_nil_r. done. }
      rewrite Hm in He. exact He.
Qed.

Lemma advance_saga_succeeded sid st pl w saga :
  _saga_store w !! sid = Some saga ->
  let saga1 := steps_append (record_of st true pl) saga in
  exists w',
    advance_saga sid st true pl w = (Ok tt, w') /\
    _saga_store w' =
      <[sid := set_status
                 (if decide (all_steps ⊆ list_to_set (successful_steps saga1))
                  then COMPLETED else RUNNING) saga1]> (_saga_store w) /\
    emits w [] w'.
Proof.
  intros Hs saga1. unfold advance_saga. rewrite Hs. cbn [negb].
  fold (record_of st true pl). fold saga1. run_m.
  destruct (decide (all_steps ⊆ list_to_set (successful_steps saga1)));
    eexists; (split; [reflexivity|]); saga_simpl;
    rewrite insert_insert_eq; (split; [done|]); by apply emits_nil.
Qed.

(** C5. A failing [advance_saga] hands to [_publish], in this order, the
    compensations of the step names recorded with [success] true, latest
    first: one [inventory.release] with the order and its items for
    [reserve_inventory], one [payment.refund] with the order and the user
    for [charge_payment], nothing for [confirm_order]; the saga is left
    [COMPENSATED]. For order O1 of user 1 with items [sku-A], a successful
    [reserve_inventory] and a failed [charge_payment] give one
    [inventory.release] and no [payment.refund]. *)
Theorem compensation_reverse_order :
  (forall (w : World) (sid : string) (saga : Saga) (st : string)
          (pl : option Dict),
     _saga_store w !! sid = Some saga ->
     exists w',
       advance_saga sid st false pl w = (Ok tt, w') /\
       publishes w' =
         publishes w ++
         flat_map (compensation_for saga) (reverse (successful_steps saga)) /\
       status_of sid w' = Some COMPENSATED) /\
  (forall saga : Saga,
     compensation_for saga (value RESERVE_INVENTORY) =
       [{| routing_key := "inventory.release";
           body := [("order_id", JStr (order_id saga));
                    ("items", JList (items saga))] |}] /\
     compensation_for saga (value CHARGE_PAYMENT) =
       [{| routing_key := "payment.refund";
           body := [("order_id", JStr (order_id saga));
                    ("user_id", JInt (user_id saga))] |}] /\
     compensation_for saga (value CONFIRM_ORDER) = []) /\
  (let w := after (create_saga "saga-1" "O1" 1 [JStr "sku-A"] ;;
                   advance_saga "saga-1" "reserve_inventory" true None ;;
                   advance_saga "saga-1" "charge_payment" false None)
                  (boot reliable) in
   status_of "saga-1" w = Some COMPENSATED /\
   publishes w =
     [{| routing_key := "inventory.release";
         body := [("order_id", JStr "O1"); ("items", JList [JStr "sku-A"])] |}] /\
   exchange w = publishes w /\
   count_key "inventory.release" (publishes w) = 1%nat /\
   count_key "payment.refund" (publishes w) = 0%nat).
Proof.
  split; [|split].
  - intros w sid saga st pl Hs.
    destruct (advance_saga_failed sid st pl w saga Hs)
      as (w' & Hrun & Hst & (_ & Hp & _)).
    exists w'. split; [done|]. split; [done|].
    unfold status_of, get_saga. rewrite Hst, lookup_insert_eq. done.
  - intros saga. by vm_compute.
  - by vm_compute.
Qed.

Lemma compensation_reverse_order_witness :
  let w0 := after (create_saga "saga-1" "O1" 1 [JStr "sku-A"] ;;
                   advance_saga "saga-1" "reserve_inventory" true None ;;
                   advance_saga "saga-1" "charge_payment" true None)
                  (boot reliable) in
  exists w',
    advance_saga "saga-1" "confirm_order" false None w0 = (Ok tt, w') /\
    map routing_key (publishes w') = ["payment.refund"; "inventory.release"] /\
    status_of "saga-1" w' = Some COMPENSATED.
Proof.
  intros w0.
  destruct compensation_reverse_order as (Hgen & _ & _).
  destruct (Hgen w0 "saga-1"
              {| saga_id := "saga-1"; order_id := "O1"; user_id := 1;
                 items := [JStr "sku-A"]; status := RUNNING;
                 steps := [record_of "reserve_inventory" true None;
                           record_of "charge_payment" true None];
                 compensations := [] |}
              "confirm_order" None) as (w' & Hrun & Hp & Hst).
  - vm_compute. reflexivity.
  - exists w'. split; [exact Hrun|]. split; [|exact Hst].
    rewrite Hp. vm_compute. reflexivity.
Defined.

(** C8. [_publish] never raises: what the broker raises is caught and
    logged, and the message is missing from the exchange. Whatever the
    broker does, [_compensate] returns, has handed every compensation to
    [_publish], the exchange having those that the broker accepted, and
    the saga is [COMPENSATED]. With a broker that refuses everything, two
    successful steps and a failed third: both compensations are attempted,
    none arrives, the saga is [COMPENSATED]. *)
Theorem compensation_best_effort :
  (forall (key : string) (pl : Dict) (w : World),
     exists w',
       _publish key pl w = (Ok tt, w') /\
       _saga_store w' = _saga_store w /\
       publishes w' = publishes w ++ [{| routing_key := key; body := pl |}] /\
       match broker w (length (publishes w)) with
       | None =>
           exchange w' = exchange w ++ [{| routing_key := key; body := pl |}] /\
           records w' = records w
       | Some e =>
           exchange w' = exchange w /\
           records w' = records w ++ [publish_failed key e]
       end) /\
  (forall (sid : string) (saga : Saga) (w : World),
     exists w',
       _compensate sid saga w = (Ok tt, w') /\
       publishes w' = publishes w ++ compensation_messages saga /\
       exchange w' =
         exchange w ++
         accepted (broker w) (length (publishes w)) (compensation_messages saga) /\
       get_saga sid w' = Some (set_status COMPENSATED saga)) /\
  (let w := after (create_saga "saga-1" "O1" 1 [JStr "sku-A"] ;;
                   advance_saga "saga-1" "reserve_inventory" true None ;;
                   advance_saga "saga-1" "charge_payment" true None ;;
                   advance_saga "saga-1" "confirm_order" false None)
                  (boot down) in
   map routing_key (publishes w) = ["payment.refund"; "inventory.release"] /\
   exchange w = [] /\
   status_of "saga-1" w = Some COMPENSATED /\
   filter (fun r => level r = WARNING) (records w) =
     [step_failed "confirm_order" "saga-1";
      publish_failed "payment.refund" "ConnectionRefused";
      publish_failed "inventory.release" "ConnectionRefused"]).
Proof.
  split; [|split].
  - intros key pl w. unfold _publish, exchange_publish, try_except.
    destruct (broker w (length (publishes w))) as [e|];
      eexists; (split; [reflexivity|]); run_m; done.
  - intros sid saga w.
    destruct (compensate_spec sid saga w) as (w' & Hrun & Hst & (_ & Hp & He)).
    exists w'. split; [done|]. split; [done|]. split; [done|].
    unfold get_saga. rewrite Hst, lookup_insert_eq. done.
  - by vm_compute.
Qed.

(** The subset test of [advance_saga] is the test on the records. *)
Lemma all_steps_subseteq saga :
  all_steps ⊆ list_to_set (C := gset string) (successful_steps saga) <->
  required_done saga.
Proof.
  assert (Hin : forall x,
            x ∈ (list_to_set (successful_steps saga) : gset string) <->
            exists rec, rec ∈ steps saga /\ step rec = x /\ success rec = true).
  { intros x. rewrite elem_of_list_to_set. unfold successful_steps.
    rewrite list_elem_of_fmap. split.
    - intros (rec & -> & Hrec). apply list_elem_of_filter in Hrec as [? ?].
      eauto.
    - intros (rec & Hrec & <- & Hok). exists rec. split; [done|].
      apply list_elem_of_filter. done. }
  unfold required_done, all_steps. split.
  - intros Hsub r. apply Hin. apply Hsub.
    rewrite !elem_of_union, !elem_of_singleton. destruct r; tauto.
  - intros Hreq x Hx.
    apply Hin.
    assert (Hcases : x = value RESERVE_INVENTORY \/ x = value CHARGE_PAYMENT \/
                     x = value CONFIRM_ORDER).
    { revert Hx. rewrite !elem_of_union, !elem_of_singleton. tauto. }
    destruct Hcases as [-> | [-> | ->]]; apply Hreq.
Qed.

Lemma create_saga_spec uuid4 oid uid its w :
  exists w',
    create_saga uuid4 oid uid its w = (Ok uuid4, w') /\
    _saga_store w' =
      <[uuid4 := {| saga_id := uuid4; order_id := oid; user_id := uid;
                    items := its; status := PENDING; steps := [];
                    compensations := [] |}]> (_saga_store w) /\
    emits w [] w'.
Proof.
  unfold create_saga. run_m. eexists. split; [reflexivity|].
  saga_simpl. split; [done|]. by apply emits_nil.
Qed.

(** Running one coroutine after another that returns. *)
Lemma after_bind {A B} (m : M A) (k : A -> M B) (w w1 : World) (a : A) :
  m w = (Ok a, w1) -> after (m ≫= k) w = after (k a) w1.
Proof. intros H. unfold after, mbind, M_bind. by rewrite H. Qed.

(** C6. [advance_saga] with [success] true on a stored saga appends the
    record and sets the status to [COMPLETED] exactly when each of
    [reserve_inventory], [charge_payment] and [confirm_order] has a record
    with [success] true, and to [RUNNING] exactly when one of them has
    none. A saga just created and advanced with the three steps, all
    successful, is [COMPLETED]. *)
Theorem success_sets_completed_or_running :
  (forall (w : World) (sid : string) (saga : Saga) (st : string)
          (pl : option Dict),
     _saga_store w !! sid = Some saga ->
     exists w' saga',
       advance_saga sid st true pl w = (Ok tt, w') /\
       get_saga sid w' = Some saga' /\
       steps saga' = steps saga ++ [record_of st true pl] /\
       (status saga' = COMPLETED <-> required_done saga') /\
       (status saga' = RUNNING <-> ~ required_done saga')) /\
  (forall (w : World) (uuid4 oid : string) (uid : Z) (its : list Json)
          (p1 p2 p3 : option Dict),
     status_of uuid4
       (after (sid ← create_saga uuid4 oid uid its;
               advance_saga sid (value RESERVE_INVENTORY) true p1 ;;
               advance_saga sid (value CHARGE_PAYMENT) true p2 ;;
               advance_saga sid (value CONFIRM_ORDER) true p3) w)
     = Some COMPLETED).
Proof.
  split.
  - intros w sid saga st pl Hs.
    destruct (advance_saga_succeeded sid st pl w saga Hs)
      as (w' & Hrun & Hst & _).
    set (saga1 := steps_append (record_of st true pl) saga) in *.
    eexists w', _. split; [done|].
    unfold get_saga. rewrite Hst, lookup_insert_eq. split; [reflexivity|].
    saga_simpl. split; [done|].
    pose proof (all_steps_subseteq saga1) as Hiff.
    assert (Hreq : forall s, required_done (set_status s saga1) <->
                             required_done saga1) by done.
    rewrite !Hreq.
    destruct (decide (all_steps ⊆ list_to_set (successful_steps saga1)))
      as [Hsub|Hsub]; saga_simpl; split; split; intros H;
      try discriminate; try reflexivity; tauto.
  - intros w uuid4 oid uid its p1 p2 p3.
    destruct (create_saga_spec uuid4 oid uid its w) as (w0 & Hc & Hs0 & _).
    rewrite (after_bind _ _ _ _ _ Hc).
    assert (H0 : _saga_store w0 !! uuid4 = Some
              {| saga_id := uuid4; order_id := oid; user_id := uid;
                 items := its; status := PENDING; steps := [];
                 compensations := [] |})
      by (rewrite Hs0; apply lookup_insert_eq).
    destruct (advance_saga_succeeded _ (value RESERVE_INVENTORY) p1 _ _ H0)
      as (w1 & Hr1 & Hs1 & _).
    rewrite (after_bind _ _ _ _ _ Hr1).
    assert (H1 : is_Some (_saga_store w1 !! uuid4))
      by (rewrite Hs1, lookup_insert_eq; eauto).
    destruct H1 as [saga1 H1].
    assert (Hsteps1 : steps saga1 = [record_of (value RESERVE_INVENTORY) true p1]).
    { rewrite Hs1, lookup_insert_eq in H1. by simplify_eq. }
    destruct (advance_saga_succeeded _ (value CHARGE_PAYMENT) p2 _ _ H1)
      as (w2 & Hr2 & Hs2 & _).
    rewrite (after_bind _ _ _ _ _ Hr2).
    assert (H2 : is_Some (_saga_store w2 !! uuid4))
      by (rewrite Hs2, lookup_insert_eq; eauto).
    destruct H2 as [saga2 H2].
    assert (Hsteps2 : steps saga2 =
              [record_of (value RESERVE_INVENTORY) true p1;
               record_of (value CHARGE_PAYMENT) true p2]).
    { rewrite Hs2, lookup_insert_eq in H2. simplify_eq. saga_simpl.
      by rewrite Hsteps1. }
    destruct (advance_saga_succeeded _ (value CONFIRM_ORDER) p3 _ _ H2)
      as (w3 & Hr3 & Hs3 & _).
    unfold after, status_of, get_saga. rewrite Hr3. cbn [snd].
    rewrite Hs3, lookup_insert_eq. cbn [fmap option_fmap option_map].
    saga_simpl. rewrite decide_True; [done|].
    apply all_steps_subseteq. intros r.
    unfold steps_append. saga_simpl. rewrite Hsteps2.
    destruct r;
      [exists (record_of (value RESERVE_INVENTORY) true p1)
      |exists (record_of (value CHARGE_PAYMENT) true p2)
      |exists (record_of (value CONFIRM_ORDER) true p3)];
      (split; [|done]); rewrite elem_of_app, !elem_of_cons; tauto.
Qed.

Lemma success_sets_completed_or_running_witness :
  exists w' saga',
    advance_saga "saga-1" "confirm_order" true None
      (after (create_saga "saga-1" "O1" 1 [JStr "sku-A"] ;;
              advance_saga "saga-1" "reserve_inventory" true None ;;
              advance_saga "saga-1" "charge_payment" true None)
             (boot reliable)) = (Ok tt, w') /\
    get_saga "saga-1" w' = Some saga' /\
    (status saga' = COMPLETED <-> required_done saga').
Proof.
  destruct success_sets_completed_or_running as (Hgen & _).
  destruct (Hgen
              (after (create_saga "saga-1" "O1" 1 [JStr "sku-A"] ;;
                      advance_saga "saga-1" "reserve_inventory" true None ;;
                      advance_saga "saga-1" "charge_payment" true None)
                     (boot reliable))
              "saga-1"
              {| saga_id := "saga-1"; order_id := "O1"; user_id := 1;
                 items := [JStr "sku-A"]; status := RUNNING;
                 steps := [record_of "reserve_inventory" true None;
                           record_of "charge_payment" true None];
                 compensations := [] |}
              "confirm_order" None)
    as (w' & saga' & Hrun & Hget & _ & Hiff & _).
  - vm_compute. reflexivity.
  - exists w', saga'. split; [exact Hrun|]. split; [exact Hget|exact Hiff].
Defined.

(** [advance_saga] returns, whatever it is given. *)
Lemma advance_total a w : exists w', advance a w = (Ok tt, w').
Proof.
  unfold advance.
  destruct (_saga_store w !! adv_saga_id a) as [saga|] eqn:Hs.
  - destruct (adv_success a).
    + destruct (advance_saga_succeeded _ (adv_step a) (adv_payload a) _ _ Hs)
        as (w' & H & _). eauto.
    + destruct (advance_saga_failed _ (adv_step a) (adv_payload a) _ _ Hs)
        as (w' & H & _). eauto.
  - destruct (advance_saga_unknown _ (adv_step a) (adv_success a)
                (adv_payload a) _ Hs) as (w' & H & _). eauto.
Qed.

Lemma after_advance_all_cons a l w :
  after (advance_all (a :: l)) w = after (advance_all l) (after (advance a) w).
Proof.
  destruct (advance_total a w) as [w1 H].
  unfold advance_all. cbn [for_each].
  unfold after, mbind, M_bind. by rewrite H.
Qed.

(** The store after one [advance_saga]: the entry of the saga advanced is
    rewritten, with one more record and a new status; nothing else is. *)
Lemma advance_store a w :
  _saga_store (after (advance a) w) = _saga_store w \/
  exists saga s,
    _saga_store w !! adv_saga_id a = Some saga /\
    (adv_success a = false -> s = COMPENSATED) /\
    _saga_store (after (advance a) w) =
      <[adv_saga_id a :=
          set_status s
            (steps_append
               (record_of (adv_step a) (adv_success a) (adv_payload a)) saga)]>
        (_saga_store w).
Proof.
  unfold advance, after.
  destruct (_saga_store w !! adv_saga_id a) as [saga|] eqn:Hs.
  - right. destruct (adv_success a) eqn:Hok.
    + destruct (advance_saga_succeeded _ (adv_step a) (adv_payload a) _ _ Hs)
        as (w' & H & Hst & _).
      rewrite H. cbn [snd]. eexists saga, _. split; [done|].
      split; [|exact Hst]. intros ?; discriminate.
    + destruct (advance_saga_failed _ (adv_step a) (adv_payload a) _ _ Hs)
        as (w' & H & Hst & _).
      rewrite H. cbn [snd]. eexists saga, _. split; [done|].
      split; [done|]. exact Hst.
  - left.
    destruct (advance_saga_unknown _ (adv_step a) (adv_success a)
                (adv_payload a) _ Hs) as (w' & H & Hst & _).
    rewrite H. done.
Qed.

Lemma advance_step_frame a w sid saga :
  _saga_store w !! sid = Some saga ->
  exists saga',
    _saga_store (after (advance a) w) !! sid = Some saga' /\
    same_frame saga saga'.
Proof.
  intros Hs.
  destruct (advance_store a w) as [Heq|(saga0 & s & Hs0 & _ & Heq)];
    rewrite Heq.
  - exists saga. by repeat split.
  - destruct (decide (adv_saga_id a = sid)) as [Hid|Hne].
    + rewrite Hid, lookup_insert_eq. rewrite Hid in Hs0.
      assert (saga0 = saga) as -> by congruence.
      eexists. split; [reflexivity|]. by repeat split.
    + rewrite lookup_insert_ne by done. exists saga. by repeat split.
Qed.

Lemma advance_step_absent a w sid :
  _saga_store w !! sid = None ->
  _saga_store (after (advance a) w) !! sid = None.
Proof.
  intros Hs.
  destruct (advance_store a w) as [Heq|(saga0 & s & Hs0 & _ & Heq)];
    rewrite Heq; [done|].
  rewrite lookup_insert_ne; [done|]. congruence.
Qed.

Lemma same_frame_trans a b c :
  same_frame a b -> same_frame b c -> same_frame a c.
Proof.
  intros (?&?&?&?&?) (?&?&?&?&?). repeat split; congruence.
Qed.

(** C10. Over any sequence of [advance_saga] calls, a stored saga stays
    stored with the same [saga_id], [order_id], [user_id], [items] and
    [compensations], an absent one stays absent, and a saga made by
    [create_saga] keeps the keys it was created with, [compensations]
    being the empty list. *)
Theorem advance_frame :
  (forall (l : list Advance) (w : World) (sid : string) (saga : Saga),
     _saga_store w !! sid = Some saga ->
     exists saga',
       get_saga sid (after (advance_all l) w) = Some saga' /\
       same_frame saga saga') /\
  (forall (l : list Advance) (w : World) (sid : string),
     _saga_store w !! sid = None ->
     get_saga sid (after (advance_all l) w) = None) /\
  (forall (l : list Advance) (w : World) (uuid4 oid : string) (uid : Z)
          (its : list Json),
     exists saga',
       get_saga uuid4
         (after (advance_all l) (after (create_saga uuid4 oid uid its) w))
       = Some saga' /\
       saga_id saga' = uuid4 /\ order_id saga' = oid /\
       user_id saga' = uid /\ items saga' = its /\
       compensations saga' = []).
Proof.
  assert (Hkeep : forall (l : list Advance) (w : World) (sid : string)
                         (saga : Saga),
            _saga_store w !! sid = Some saga ->
            exists saga',
              get_saga sid (after (advance_all l) w) = Some saga' /\
              same_frame saga saga').
  { induction l as [|a l IH]; intros w sid saga Hs.
    - exists saga. split; [exact Hs|]. by repeat split.
    - rewrite after_advance_all_cons.
      destruct (advance_step_frame a w sid saga Hs) as (saga1 & Hs1 & Hf1).
      destruct (IH _ sid saga1 Hs1) as (saga2 & Hs2 & Hf2).
      exists saga2. split; [done|]. eapply same_frame_trans; eauto. }
  split; [exact Hkeep|]. split.
  - induction l as [|a l IH]; intros w sid Hs; [exact Hs|].
    rewrite after_advance_all_cons. apply IH. by apply advance_step_absent.
  - intros l w uuid4 oid uid its.
    destruct (create_saga_spec uuid4 oid uid its w) as (w0 & Hc & Hs0 & _).
    unfold after at 2. rewrite Hc. cbn [snd].
    destruct (Hkeep l w0 uuid4 _ ltac:(rewrite Hs0; apply lookup_insert_eq))
      as (saga' & Hget & (H1 & H2 & H3 & H4 & H5)).
    exists saga'. saga_simpl. by repeat split.
Qed.

Lemma advance_frame_witness :
  exists saga',
    get_saga "saga-1"
      (after (advance_all
                [{| adv_saga_id := "saga-1"; adv_step := "charge_payment";
                    adv_success := false; adv_payload := None |}])
             (after (create_saga "saga-1" "O1" 1 [JStr "sku-A"] ;;
                     advance_saga "saga-1" "reserve_inventory" true None)
                    (boot reliable)))
    = Some saga' /\
    same_frame
      {| saga_id := "saga-1"; order_id := "O1"; user_id := 1;
         items := [JStr "sku-A"]; status := RUNNING;
         steps := [record_of "reserve_inventory" true None];
         compensations := [] |} saga' /\
  get_saga "saga-2"
    (after (advance_all
              [{| adv_saga_id := "saga-2"; adv_step := "charge_payment";
                  adv_success := true; adv_payload := None |}])
           (boot reliable)) = None.
Proof.
  destruct advance_frame as (Hkeep & Habsent & _).
  destruct (Hkeep
              [{| adv_saga_id := "saga-1"; adv_step := "charge_payment";
                  adv_success := false; adv_payload := None |}]
              (after (create_saga "saga-1" "O1" 1 [JStr "sku-A"] ;;
                      advance_saga "saga-1" "reserve_inventory" true None)
                     (boot reliable))
              "saga-1"
              {| saga_id := "saga-1"; order_id := "O1"; user_id := 1;
                 items := [JStr "sku-A"]; status := RUNNING;
                 steps := [record_of "reserve_inventory" true None];
                 compensations := [] |})
    as (saga' & Hget & Hframe).
  - vm_compute. reflexivity.
  - exists saga'. split; [exact Hget|]. split; [exact Hframe|].
    apply Habsent. vm_compute. reflexivity.
Defined.

(** A failing [advance_saga] leaves the status of a saga as it was or
    makes it [COMPENSATED]. *)
Lemma failing_step_status a w sid s :
  adv_success a = false ->
  status_of sid w = Some s ->
  status_of sid (after (advance a) w) = Some s \/
  status_of sid (after (advance a) w) = Some COMPENSATED.
Proof.
  intros Hfail Hs. unfold status_of, get_saga in *.
  destruct (advance_store a w) as [Heq|(saga0 & s0 & Hs0 & Hcomp & Heq)];
    rewrite Heq; [by left|].
  destruct (decide (adv_saga_id a = sid)) as [Hid|Hne].
  - right. rewrite Hid, lookup_insert_eq. cbn. by rewrite (Hcomp Hfail).
  - left. by rewrite lookup_insert_ne.
Qed.

(** A call that names another saga leaves the status of a saga as it
    was. *)
Lemma other_step_status a w sid :
  adv_saga_id a <> sid ->
  status_of sid (after (advance a) w) = status_of sid w.
Proof.
  intros Hne. unfold status_of, get_saga.
  destruct (advance_store a w) as [Heq|(saga0 & s0 & Hs0 & _ & Heq)];
    rewrite Heq; [done|].
  by rewrite lookup_insert_ne.
Qed.

(** C2, as the code has it. A saga that is [COMPENSATING] or
    [COMPENSATED] stays so over every sequence of [advance_saga] calls none
    of which reports a success for this saga: calls that report a failure,
    for this saga or another, and calls that name other sagas, successful
    or not; a failure reported for the saga leaves it [COMPENSATED]. Only a
    success reported for the saga itself takes it out of compensation: the
    record is appended and the status is [COMPLETED] exactly when each of
    the three required steps has a successful record in the log, and
    [RUNNING] exactly when one of them has none. *)
Theorem compensation_left_only_by_success :
  (forall (l : list Advance) (w : World) (sid : string) (s : SagaStatus),
     Forall (fun a => adv_success a = false \/ adv_saga_id a <> sid) l ->
     status_of sid w = Some s ->
     s = COMPENSATING \/ s = COMPENSATED ->
     status_of sid (after (advance_all l) w) = Some COMPENSATING \/
     status_of sid (after (advance_all l) w) = Some COMPENSATED) /\
  (forall (w : World) (sid : string) (saga : Saga) (st : string)
          (pl : option Dict),
     _saga_store w !! sid = Some saga ->
     status_of sid (after (advance_saga sid st false pl) w) = Some COMPENSATED) /\
  (forall (w : World) (sid : string) (saga : Saga) (st : string)
          (pl : option Dict),
     _saga_store w !! sid = Some saga ->
     status saga = COMPENSATING \/ status saga = COMPENSATED ->
     exists saga',
       get_saga sid (after (advance_saga sid st true pl) w) = Some saga' /\
       steps saga' = steps saga ++ [record_of st true pl] /\
       (status saga' = COMPLETED <-> required_done saga') /\
       (status saga' = RUNNING <-> ~ required_done saga')).
Proof.
  split; [|split].
  - induction l as [|a l IH]; intros w sid s Hall Hs Hcomp.
    + cbn. destruct Hcomp as [->| ->]; [by left|by right].
    + apply Forall_cons in Hall as [Ha Hl].
      rewrite after_advance_all_cons.
      destruct Ha as [Ha|Ha].
      * destruct (failing_step_status a w sid s Ha Hs) as [H1|H1].
        -- by apply (IH _ sid s).
        -- apply (IH _ sid COMPENSATED); [done|done|by right].
      * apply (IH _ sid s); [done| |done].
        by rewrite other_step_status.
  - intros w sid saga st pl Hs.
    destruct (advance_saga_failed sid st pl w saga Hs) as (w' & Hrun & Hst & _).
    unfold after, status_of, get_saga. rewrite Hrun. cbn [snd].
    by rewrite Hst, lookup_insert_eq.
  - intros w sid saga st pl Hs _.
    destruct (advance_saga_succeeded sid st pl w saga Hs)
      as (w' & Hrun & Hst & _).
    set (saga1 := steps_append (record_of st true pl) saga) in *.
    unfold after, get_saga. rewrite Hrun. cbn [snd].
    rewrite Hst, lookup_insert_eq. eexists. split; [reflexivity|].
    saga_simpl. split; [done|].
    pose proof (all_steps_subseteq saga1) as Hiff.
    assert (Hreq : forall s, required_done (set_status s saga1) <->
                             required_done saga1) by done.
    rewrite !Hreq.
    destruct (decide (all_steps ⊆ list_to_set (successful_steps saga1)))
      as [Hsub|Hsub]; saga_simpl; split; split; intros H;
      try discriminate; try reflexivity; tauto.
Qed.

Lemma compensation_left_only_by_success_witness :
  let w := after (create_saga "saga-1" "O1" 1 [JStr "sku-A"] ;;
                  create_saga "saga-2" "O2" 2 [] ;;
                  advance_saga "saga-1" "reserve_inventory" false None)
                 (boot reliable) in
  (status_of "saga-1"
     (after (advance_all
               [{| adv_saga_id := "saga-1"; adv_step := "reserve_inventory";
                   adv_success := false; adv_payload := None |};
                {| adv_saga_id := "saga-2"; adv_step := "reserve_inventory";
                   adv_success := true; adv_payload := None |}]) w)
   = Some COMPENSATING \/
   status_of "saga-1"
     (after (advance_all
               [{| adv_saga_id := "saga-1"; adv_step := "reserve_inventory";
                   adv_success := false; adv_payload := None |};
                {| adv_saga_id := "saga-2"; adv_step := "reserve_inventory";
                   adv_success := true; adv_payload := None |}]) w)
   = Some COMPENSATED) /\
  status_of "saga-1" (after (advance_saga "saga-1" "charge_payment" false None) w)
    = Some COMPENSATED /\
  (exists saga',
     get_saga "saga-1"
       (after (advance_saga "saga-1" "reserve_inventory" true None) w)
     = Some saga' /\
     (status saga' = RUNNING <-> ~ required_done saga')).
Proof.
  intros w.
  destruct compensation_left_only_by_success as (Hseq & Hfail & Hok).
  pose (saga := {| saga_id := "saga-1"; order_id := "O1"; user_id := 1;
                   items := [JStr "sku-A"]; status := COMPENSATED;
                   steps := [record_of "reserve_inventory" false None];
                   compensations := [] |}).
  assert (Hs : _saga_store w !! "saga-1" = Some saga)
    by (vm_compute; reflexivity).
  split; [|split].
  - apply (Hseq _ w "saga-1" COMPENSATED).
    + constructor; [left; reflexivity|].
      constructor; [right; discriminate|constructor].
    + vm_compute. reflexivity.
    + right. reflexivity.
  - apply (Hfail w "saga-1" saga). exact Hs.
  - destruct (Hok w "saga-1" saga "reserve_inventory" None Hs)
      as (saga' & Hget & _ & _ & Hrunning).
    + right. reflexivity.
    + exists saga'. split; [exact Hget|exact Hrunning].
Defined.

(** C2, as stated, fails: a compensated saga that is advanced with a
    success is [RUNNING] again. *)
Lemma compensated_saga_runs_again :
  ~ (forall (w : World) (sid st : string) (ok : bool) (pl : option Dict),
       status_of sid w = Some COMPENSATED ->
       status_of sid (after (advance_saga sid st ok pl) w) <> Some RUNNING /\
       status_of sid (after (advance_saga sid st ok pl) w) <> Some COMPLETED).
Proof.
  intros H.
  destruct (H (after (create_saga "saga-1" "O1" 1 [JStr "sku-A"] ;;
                      advance_saga "saga-1" "reserve_inventory" false None)
                     (boot reliable))
              "saga-1" "reserve_inventory" true None) as [Hrunning _].
  - vm_compute. reflexivity.
  - apply Hrunning. vm_compute. reflexivity.
Qed.

Lemma count_key_app key ms1 ms2 :
  count_key key (ms1 ++ ms2) = (count_key key ms1 + count_key key ms2)%nat.
Proof. unfold count_key. by rewrite filter_app, length_app. Qed.

(** Counting the compensations of a log: one per successful record of the
    step that [key] undoes. *)
Lemma count_key_compensations saga key st :
  (forall s, count_key key (compensation_for saga s) =
             if decide (s = st) then 1%nat else 0%nat) ->
  forall l : list StepRecord,
    count_key key
      (flat_map (compensation_for saga)
         (reverse (step <$> filter (fun r => success r = true) l))) =
    length (filter (fun r => success r = true /\ step r = st) l).
Proof.
  intros Hkey. induction l as [|r l IH]; [done|].
  rewrite !filter_cons.
  destruct (decide (success r = true)) as [Hok|Hok].
  - rewrite fmap_cons, reverse_cons, flat_map_app, count_key_app, IH.
    cbn [flat_map]. rewrite app_nil_r, Hkey.
    destruct (decide (step r = st)) as [Hst|Hst].
    + rewrite decide_True by done. cbn [length]. lia.
    + rewrite decide_False by tauto. lia.
  - rewrite decide_False by tauto. exact IH.
Qed.

Lemma compensation_messages_failed s st pl saga :
  compensation_messages (set_status s (steps_append (record_of st false pl) saga))
  = compensation_messages saga.
Proof.
  unfold compensation_messages.
  change (successful_steps (set_status s (steps_append (record_of st false pl) saga)))
    with (successful_steps (steps_append (record_of st false pl) saga)).
  rewrite successful_steps_append. cbn. by rewrite app_nil_r.
Qed.

(** C3, as the code has it. One failing [advance_saga] hands to
    [_publish] one [inventory.release] per successful record of
    [reserve_inventory] and one [payment.refund] per successful record of
    [charge_payment], and nothing else; a second failing call for the same
    step hands the same messages over again. *)
Theorem compensations_once_per_failing_call :
  forall (w : World) (sid : string) (saga : Saga) (st : string)
         (pl pl' : option Dict),
    _saga_store w !! sid = Some saga ->
    exists w1 w2 E,
      advance_saga sid st false pl w = (Ok tt, w1) /\
      advance_saga sid st false pl' w1 = (Ok tt, w2) /\
      publishes w1 = publishes w ++ E /\
      publishes w2 = publishes w1 ++ E /\
      count_key "inventory.release" E =
        count_done (value RESERVE_INVENTORY) saga /\
      count_key "payment.refund" E = count_done (value CHARGE_PAYMENT) saga /\
      Forall (fun m => routing_key m = "inventory.release" \/
                       routing_key m = "payment.refund") E.
Proof.
  intros w sid saga st pl pl' Hs.
  destruct (advance_saga_failed sid st pl w saga Hs)
    as (w1 & Hrun1 & Hst1 & (_ & Hp1 & _)).
  assert (Hs1 : _saga_store w1 !! sid =
                Some (set_status COMPENSATED
                        (steps_append (record_of st false pl) saga)))
    by (rewrite Hst1; apply lookup_insert_eq).
  destruct (advance_saga_failed sid st pl' w1 _ Hs1)
    as (w2 & Hrun2 & _ & (_ & Hp2 & _)).
  rewrite compensation_messages_failed in Hp2.
  exists w1, w2, (compensation_messages saga).
  repeat (split; [done|]). split; [|split].
  - apply count_key_compensations. intros s. unfold compensation_for.
    repeat case_decide; subst; done.
  - apply count_key_compensations. intros s. unfold compensation_for.
    repeat case_decide; subst; done.
  - unfold compensation_messages. apply Forall_flat_map, Forall_forall.
    intros s _. unfold compensation_for.
    repeat case_decide;
      [constructor; [by left|constructor]
      |constructor; [by right|constructor]
      |constructor].
Qed.

Lemma compensations_once_per_failing_call_witness :
  exists w1 w2 E,
    advance_saga "saga-1" "charge_payment" false None
      (after (create_saga "saga-1" "O1" 1 [JStr "sku-A"] ;;
              advance_saga "saga-1" "reserve_inventory" true None)
             (boot reliable)) = (Ok tt, w1) /\
    advance_saga "saga-1" "charge_payment" false None w1 = (Ok tt, w2) /\
    publishes w2 = E ++ E /\
    count_key "inventory.release" E = 1%nat.
Proof.
  destruct (compensations_once_per_failing_call
              (after (create_saga "saga-1" "O1" 1 [JStr "sku-A"] ;;
                      advance_saga "saga-1" "reserve_inventory" true None)
                     (boot reliable))
              "saga-1"
              {| saga_id := "saga-1"; order_id := "O1"; user_id := 1;
                 items := [JStr "sku-A"]; status := RUNNING;
                 steps := [record_of "reserve_inventory" true None];
                 compensations := [] |}
              "charge_payment" None None)
    as (w1 & w2 & E & H1 & H2 & Hp1 & Hp2 & Hrel & _).
  - vm_compute. reflexivity.
  - exists w1, w2, E. split; [exact H1|]. split; [exact H2|].
    split; [rewrite Hp2, Hp1; reflexivity|]. rewrite Hrel. vm_compute.
    reflexivity.
Defined.

(** C3, as stated, fails: with one successful [reserve_inventory], two
    failing calls for [charge_payment] hand two [inventory.release]
    messages to [_publish], and a reliable broker takes both. *)
Lemma compensation_emitted_twice :
  let w := after (create_saga "saga-1" "O1" 1 [JStr "sku-A"] ;;
                  advance_saga "saga-1" "reserve_inventory" true None ;;
                  advance_saga "saga-1" "charge_payment" false None ;;
                  advance_saga "saga-1" "charge_payment" false None)
                 (boot reliable) in
  (count_done "reserve_inventory" <$> get_saga "saga-1" w) = Some 1%nat /\
  count_key "inventory.release" (publishes w) = 2%nat /\
  count_key "inventory.release" (exchange w) = 2%nat /\
  ~ (count_key "inventory.release" (publishes w) <= 1)%nat.
Proof.
  vm_compute. repeat split; try reflexivity. lia.
Qed.

End SagaFacts.

(** ** Further properties of the circuit breaker *)

Module BreakerMore.
Import Breaker BreakerSpec BreakerInv Scenario BreakerFacts.

Ltac breaker_cases :=
  unfold call, call_gate, await, _on_failure, _on_success, opened_at_or_0 in *;
  breaker_simpl.

Lemma on_failure_healthy (self : CircuitBreaker) (exc : Exception) (w : World) :
  _state self <> OPEN -> 0 <= _failure_count self ->
  1 <= success_threshold self ->
  healthy (fst (_on_failure self exc w)).
Proof.
  intros Hno Hfc Hst.
  destruct (Z_le_gt_dec (failure_threshold self) (_failure_count self + 1))
    as [Hge|Hlt].
  - destruct (on_failure_trips self exc w Hno Hge)
      as (Hs & Hat & _ & _ & Hc & Hsc & (_ & Hft & _ & Hth)).
    unfold healthy. rewrite Hs, Hat, Hc, Hsc, <- Hft.
    repeat split; intros; try discriminate; try lia. eauto.
  - destruct (on_failure_below self exc w ltac:(lia))
      as (Hs & _ & _ & _ & Hc & Hsc & (_ & Hft & _ & Hth)).
    unfold healthy. rewrite Hs, Hc, Hsc, <- Hft, <- Hth.
    repeat split; intros; try lia; done.
Qed.

Lemma on_success_healthy (self : CircuitBreaker) (w : World) :
  _state self <> OPEN -> 0 <= _success_count self ->
  1 <= failure_threshold self ->
  (_state self = HALF_OPEN -> _success_count self < success_threshold self) ->
  healthy (fst (_on_success self w)).
Proof.
  intros Hno Hsc Hft Hhalf. unfold _on_success. breaker_simpl.
  destruct (decide (_state self = HALF_OPEN)) as [Hs|Hs].
  - breaker_simpl.
    destruct (decide (success_threshold self <= _success_count self + 1));
      unfold healthy; breaker_simpl; rewrite ?Hs;
      repeat split; intros; try discriminate; lia.
  - unfold healthy. breaker_simpl.
    repeat split; intros; try lia; done.
Qed.

Lemma call_keeps_healthy {T} (self : CircuitBreaker) (func : Operation T)
    (w : World) :
  1 <= failure_threshold self -> 1 <= success_threshold self ->
  healthy self ->
  healthy (snd (fst (call self func w))) /\
  same_config self (snd (fst (call self func w))).
Proof.
  intros Hft Hst Hh.
  assert (Hcfg : forall (self1 : CircuitBreaker) w1 exc,
            same_config self1 (fst (_on_failure self1 exc w1))).
  { intros self1 w1 exc. unfold _on_failure. breaker_simpl.
    destruct (_ && _); by repeat split. }
  assert (Hcfg' : forall (self1 : CircuitBreaker) w1,
            same_config self1 (fst (_on_success self1 w1))).
  { intros self1 w1. unfold _on_success. breaker_simpl.
    repeat case_decide; by repeat split. }
  pose proof Hh as (Hfc & Hsc & Hclosed & Hopen & Hhalf).
  unfold call.
  destruct (gate_cases self w) as [(e & Hg & Ho)|[(Hg & Hno)|(Hg & Ho)]];
    rewrite Hg.
  - cbn [fst snd]. split; [exact Hh|apply same_config_refl].
  - unfold await. destruct (outcome func) as [v|exc].
    + pose proof (on_success_healthy self
        {| monotonic := monotonic w + took func; awaited := S (awaited w);
           records := records w |} Hno Hsc Hft Hhalf) as H.
      specialize (Hcfg' self {| monotonic := monotonic w + took func;
                                awaited := S (awaited w);
                                records := records w |}).
      destruct (_on_success self _). done.
    + pose proof (on_failure_healthy self exc
        {| monotonic := monotonic w + took func; awaited := S (awaited w);
           records := records w |} Hno Hfc Hst) as H.
      specialize (Hcfg self {| monotonic := monotonic w + took func;
                               awaited := S (awaited w);
                               records := records w |} exc).
      destruct (_on_failure self exc _). done.
  - set (self1 := set_success_count 0 (set_state HALF_OPEN self)).
    destruct (Hopen Ho) as (Hge & _ & _).
    unfold await. destruct (outcome func) as [v|exc].
    + set (w1 := {| monotonic := _ |}).
      pose proof (on_success_healthy self1 w1) as H.
      specialize (Hcfg' self1 w1).
      destruct (_on_success self1 w1). cbn [fst snd] in *.
      split; [apply H; subst self1; breaker_simpl; (done || lia)|].
      eapply same_config_trans; [|exact Hcfg']. by repeat split.
    + set (w1 := {| monotonic := _ |}).
      pose proof (on_failure_healthy self1 exc w1) as H.
      specialize (Hcfg self1 w1 exc).
      destruct (_on_failure self1 exc w1). cbn [fst snd] in *.
      split; [apply H; subst self1; breaker_simpl; (done || lia)|].
      eapply same_config_trans; [|exact Hcfg]. by repeat split.
Qed.

(** X1. A breaker made by [__init__] with both thresholds at least 1
    keeps, over any calls made one after the other: the counters are not
    negative; closed, it has counted fewer failures than the threshold;
    open, it has counted at least the threshold, [_success_count] is 0 and
    [_opened_at] is set; half-open, it has counted fewer successes than
    [success_threshold]. Its name and configuration never change. *)
Theorem reachable_breaker_healthy {T} (script : list (Attempt T))
    (nm : string) (ft rt st : Z) (w : World) :
  1 <= ft -> 1 <= st ->
  healthy (breaker_of (run script (__init__ nm ft rt st, w))) /\
  same_config (__init__ nm ft rt st)
              (breaker_of (run script (__init__ nm ft rt st, w))).
Proof.
  intros Hft Hst.
  assert (Hgen : forall (l : list (Attempt T)) (self : CircuitBreaker)
                        (w0 : World),
            1 <= failure_threshold self -> 1 <= success_threshold self ->
            healthy self ->
            healthy (breaker_of (run l (self, w0))) /\
            same_config self (breaker_of (run l (self, w0)))).
  { induction l as [|a rest IH]; intros self w0 H1 H2 Hh.
    - split; [exact Hh|apply same_config_refl].
    - cbn [run]. unfold attempt. cbn [fst snd].
      destruct (call_keeps_healthy self (op a) (sleep (wait a) w0) H1 H2 Hh)
        as [Hh1 Hc1].
      destruct (call self (op a) (sleep (wait a) w0)) as [[r self1] w1].
      cbn [fst snd] in Hh1, Hc1.
      assert (H1' : 1 <= failure_threshold self1)
        by (destruct Hc1 as (_ & <- & _); done).
      assert (H2' : 1 <= success_threshold self1)
        by (destruct Hc1 as (_ & _ & _ & <-); done).
      destruct (IH self1 w1 H1' H2' Hh1) as [Hh2 Hc2].
      destruct (run rest (self1, w1)) as [rs [self2 w2]].
      unfold breaker_of in *. cbn [fst snd] in *.
      split; [done|]. eapply same_config_trans; eauto. }
  apply Hgen; [done|done|].
  unfold healthy, __init__. cbn. repeat split; intros; try lia; done.
Qed.

Lemma reachable_breaker_healthy_witness :
  healthy (breaker_of (run (three_failures ++ [passing 11; failing 1])
                           (__init__ "payments" 3 10 2, boot 0))) /\
  same_config (__init__ "payments" 3 10 2)
    (breaker_of (run (three_failures ++ [passing 11; failing 1])
                     (__init__ "payments" 3 10 2, boot 0))).
Proof.
  apply (reachable_breaker_healthy
           (three_failures ++ [passing 11; failing 1]) "payments" 3 10 2
           (boot 0)); lia.
Defined.

(** X2. Every call is one of two things. Rejected: the breaker is open
    and less than [recovery_timeout] has passed since [_opened_at]; the
    caller gets [CircuitBreakerError] with a remaining cooldown above 0,
    and neither the breaker nor anything else has changed. Or let through:
    the operation is awaited exactly once and the caller gets what it
    returned, or the exception it raised, as it is. *)
Theorem call_rejects_or_hands_on {T} (self : CircuitBreaker)
    (func : Operation T) (w : World) :
  (_state self = OPEN /\ elapsed self w < recovery_timeout self /\
   0 < recovery_timeout self - elapsed self w /\
   call self func w =
     (Raise (CircuitBreakerError (name self)
               (recovery_timeout self - elapsed self w)), self, w)) \/
  (~ (_state self = OPEN /\ elapsed self w < recovery_timeout self) /\
   exists self' w',
     call self func w = (handed_on (outcome func), self', w') /\
     awaited w' = S (awaited w) /\
     monotonic w' = monotonic w + took func /\
     same_config self self').
Proof.
  unfold elapsed.
  destruct (decide (_state self = OPEN)) as [Ho|Ho].
  - destruct (decide (monotonic w - opened_at_or_0 self < recovery_timeout self))
      as [Hlt|Hge].
    + left. rewrite call_rejected by done. repeat split; try done. lia.
    + right. split; [tauto|].
      unfold call. rewrite gate_half_opens by (done || lia). unfold await.
      destruct (outcome func) as [v|exc]; cbn [handed_on].
      * destruct (_on_success _ _) as [self' w'] eqn:Hf.
        exists self', w'. split; [done|].
        unfold _on_success in Hf. breaker_simpl.
        repeat case_decide; simplify_eq; by repeat split.
      * destruct (_on_failure _ _ _) as [self' w'] eqn:Hf.
        exists self', w'. split; [done|].
        unfold _on_failure in Hf. breaker_simpl.
        destruct (_ && _); simplify_eq; by repeat split.
  - right. split; [tauto|].
    unfold call. rewrite gate_not_open by done. unfold await.
    destruct (outcome func) as [v|exc]; cbn [handed_on].
    + destruct (_on_success _ _) as [self' w'] eqn:Hf.
      exists self', w'. split; [done|].
      unfold _on_success in Hf. breaker_simpl.
      repeat case_decide; simplify_eq; by repeat split.
    + destruct (_on_failure _ _ _) as [self' w'] eqn:Hf.
      exists self', w'. split; [done|].
      unfold _on_failure in Hf. breaker_simpl.
      destruct (_ && _); simplify_eq; by repeat split.
Qed.

Lemma run_app {T} (l1 l2 : list (Attempt T)) (sw : CircuitBreaker * World) :
  run (l1 ++ l2) sw =
  (fst (run l1 sw) ++ fst (run l2 (snd (run l1 sw))),
   snd (run l2 (snd (run l1 sw)))).
Proof.
  revert sw. induction l1 as [|a l1 IH]; intros sw.
  - cbn. by destruct (run l2 sw).
  - cbn [run app]. destruct (attempt a sw) as [[r self1] w1].
    rewrite IH. destruct (run l1 (self1, w1)) as [rs1 sw1].
    cbn [fst snd]. done.
Qed.

(** Raising calls on a closed breaker that stay below the threshold. *)
Lemma closed_failures_below {T} (script : list (Attempt T)) :
  forall (self : CircuitBreaker) (w : World),
    _state self = CLOSED ->
    Forall (fun a => fails a = true) script ->
    _failure_count self + Z.of_nat (length script) < failure_threshold self ->
    _state (breaker_of (run script (self, w))) = CLOSED /\
    _failure_count (breaker_of (run script (self, w))) =
      _failure_count self + Z.of_nat (length script) /\
    awaited (world_of (run script (self, w))) =
      (awaited w + length script)%nat /\
    same_config self (breaker_of (run script (self, w))).
Proof.
  induction script as [|a rest IH]; intros self w Hs Hall Hlt.
  - unfold breaker_of, world_of. cbn.
    split; [done|]. split; [lia|]. split; [lia|apply same_config_refl].
  - apply Forall_cons in Hall as [Ha Hrest]. unfold fails in Ha.
    destruct (outcome (op a)) as [v|exc] eqn:Hout; [done|].
    cbn [run length] in *. unfold attempt. cbn [fst snd].
    unfold call. rewrite gate_not_open by congruence.
    unfold await. rewrite Hout.
    set (w1 := {| monotonic := _ |}).
    destruct (on_failure_below self exc w1 ltac:(lia))
      as (Hs1 & _ & _ & Haw & Hfc & _ & Hcfg).
    destruct (_on_failure self exc w1) as [self1 w2]. cbn [fst snd] in *.
    destruct (IH self1 w2) as (Hs2 & Hfc2 & Haw2 & Hcfg2);
      [congruence|done|destruct Hcfg as (_ & <- & _); lia|].
    destruct (run rest (self1, w2)) as [rs [self3 w3]].
    unfold breaker_of, world_of in *. cbn [fst snd] in *.
    split; [done|]. split; [lia|]. split.
    + rewrite Haw2, Haw. subst w1. cbn. lia.
    + eapply same_config_trans; eauto.
Qed.

(** X3. A closed breaker counts failures in a row only. Let it see
    failures that stay below the threshold, then a success, then again
    fewer failures than the threshold: it is still closed, no call was
    rejected, and its failure count is the number of failures since the
    success, however many failures there were in all. *)
Theorem closed_counts_failures_in_a_row {T} (self : CircuitBreaker)
    (w : World) (before : list (Attempt T)) (a : Attempt T)
    (since : list (Attempt T)) :
  _state self = CLOSED ->
  Forall (fun b => fails b = true) before ->
  succeeds a = true ->
  Forall (fun b => fails b = true) since ->
  _failure_count self + Z.of_nat (length before) < failure_threshold self ->
  Z.of_nat (length since) < failure_threshold self ->
  state (breaker_of (run (before ++ a :: since) (self, w))) = CLOSED /\
  _failure_count (breaker_of (run (before ++ a :: since) (self, w))) =
    Z.of_nat (length since) /\
  awaited (world_of (run (before ++ a :: since) (self, w))) =
    (awaited w + length (before ++ a :: since))%nat.
Proof.
  intros Hs Hb Ha Hsince Hlt1 Hlt2.
  destruct (closed_failures_below before self w Hs Hb Hlt1)
    as (Hs1 & _ & Haw1 & Hcfg1).
  rewrite run_app. unfold breaker_of, world_of in *. cbn [fst snd].
  destruct (run before (self, w)) as [rs1 [self1 w1]]. cbn [fst snd] in *.
  cbn [run]. unfold attempt. cbn [fst snd].
  unfold succeeds, fails in Ha.
  destruct (outcome (op a)) as [v|exc] eqn:Hout; [|done].
  unfold call. rewrite gate_not_open by congruence.
  unfold await. rewrite Hout. unfold _on_success. breaker_simpl.
  rewrite decide_False by congruence.
  set (self2 := set_failure_count 0 self1).
  set (w2 := {| monotonic := _ |}).
  destruct (closed_failures_below since self2 w2) as (Hs3 & Hfc3 & Haw3 & _);
    [done|done|subst self2; breaker_simpl; destruct Hcfg1 as (_ & <- & _); lia|].
  destruct (run since (self2, w2)) as [rs3 [self3 w3]].
  unfold breaker_of, world_of in *. cbn [fst snd] in *.
  split; [done|]. split; [rewrite Hfc3; subst self2; breaker_simpl; lia|].
  rewrite Haw3. subst w2. cbn [awaited sleep]. rewrite Haw1, length_app.
  cbn [length]. lia.
Qed.

Lemma closed_counts_failures_in_a_row_witness :
  state (breaker_of (run ([failing 0; failing 0] ++
                          passing 0 :: [failing 0; failing 0])
                         (payments, boot 0))) = CLOSED /\
  _failure_count (breaker_of (run ([failing 0; failing 0] ++
                                   passing 0 :: [failing 0; failing 0])
                                  (payments, boot 0))) =
    Z.of_nat (length [failing 0; failing 0]) /\
  awaited (world_of (run ([failing 0; failing 0] ++
                          passing 0 :: [failing 0; failing 0])
                         (payments, boot 0))) =
    (awaited (boot 0) +
     length ([failing 0; failing 0] ++ passing 0 :: [failing 0; failing 0]))%nat.
Proof.
  apply (closed_counts_failures_in_a_row payments (boot 0)
           [failing 0; failing 0] (passing 0) [failing 0; failing 0]).
  - reflexivity.
  - repeat constructor.
  - reflexivity.
  - repeat constructor.
  - vm_compute. reflexivity.
  - vm_compute. reflexivity.
Defined.

(** X4. A probe that fails. On an open breaker that has counted at least
    [failure_threshold] failures, a call after the cooldown whose
    operation raises hands the exception on and leaves the breaker open,
    opened anew at the reading of the clock when the operation ended, with
    one more failure counted; calls in the next [recovery_timeout] ticks
    are rejected again. *)
Theorem failed_probe_reopens {T} (self : CircuitBreaker) (func : Operation T)
    (w : World) (exc : Exception) :
  _state self = OPEN ->
  failure_threshold self <= _failure_count self ->
  recovery_timeout self <= elapsed self w ->
  outcome func = Raises exc ->
  exists self' w',
    call self func w = (Raise (Propagated exc), self', w') /\
    state self' = OPEN /\
    _opened_at self' = Some (monotonic w + took func) /\
    monotonic w' = monotonic w + took func /\
    _failure_count self' = _failure_count self + 1 /\
    _success_count self' = 0 /\
    awaited w' = S (awaited w) /\
    forall (d : Z) (next : Operation T),
      d < recovery_timeout self ->
      call self' next (sleep d w') =
        (Raise (CircuitBreakerError (name self) (recovery_timeout self - d)),
         self', sleep d w').
Proof.
  intros Hs Hge Hel Hout. unfold elapsed in Hel.
  unfold call at 1. rewrite gate_half_opens by done.
  unfold await. rewrite Hout.
  set (self1 := set_success_count 0 (set_state HALF_OPEN self)).
  set (w1 := {| monotonic := _ |}).
  destruct (on_failure_trips self1 exc w1)
    as (Hs' & Hat & Hm & Haw & Hfc & Hsc & (Hn & _ & Hrt & _));
    [done|subst self1; breaker_simpl; lia|].
  destruct (_on_failure self1 exc w1) as [self' w'] eqn:Hf.
  cbn [fst snd] in *. subst self1 w1. breaker_simpl.
  exists self', w'. repeat (split; [done|]).
  intros d next Hd.
  assert (Hel' : monotonic (sleep d w') - opened_at_or_0 self' = d).
  { unfold opened_at_or_0. rewrite Hat. cbn [sleep monotonic].
    rewrite Hm. case_decide; lia. }
  rewrite call_rejected; rewrite ?Hel', <- ?Hrt, <- ?Hn; done.
Qed.

Lemma failed_probe_reopens_witness :
  exists self' w',
    call (breaker_after three_failures) (op (failing 11))
         (sleep 11 (world_after three_failures)) =
      (Raise (Propagated "503"), self', w') /\
    state self' = OPEN /\
    _opened_at self' = Some 11.
Proof.
  destruct (failed_probe_reopens (breaker_after three_failures)
              (op (failing 11)) (sleep 11 (world_after three_failures)) "503")
    as (self' & w' & Hcall & Hs & Hat & _).
  - vm_compute. reflexivity.
  - vm_compute. discriminate.
  - vm_compute. discriminate.
  - vm_compute. reflexivity.
  - exists self', w'. split; [exact Hcall|]. split; [exact Hs|].
    rewrite Hat. vm_compute. reflexivity.
Defined.

End BreakerMore.

(** ** Properties of the breaker registry *)

Module RegistryFacts.
Import Breaker BreakerSpec Scenario Registry RegistrySpec BreakerFacts.

Lemma call_keeps_name {T} (self : CircuitBreaker) (func : Operation T)
    (w : World) :
  name (snd (fst (call self func w))) = name self.
Proof.
  unfold call, call_gate, await, _on_failure, _on_success. breaker_simpl.
  repeat (case_decide || case_match); simplify_eq; done.
Qed.

(** X5. [get_breaker] gets or creates. The breaker it returns is the one
    stored under the service afterwards; it is the stored one when there
    was one, whatever the keyword arguments, and a new closed breaker with
    those arguments otherwise; asking again, with any arguments, returns
    the same breaker and leaves the registry as it is; the breakers of the
    other services are not touched, and every breaker stays named after
    its key. *)
Theorem get_breaker_gets_or_creates (service : string) (kwargs again : Kwargs)
    (reg : gmap string CircuitBreaker) :
  let b := fst (get_breaker service kwargs reg) in
  let reg1 := snd (get_breaker service kwargs reg) in
  reg1 !! service = Some b /\
  b = default (CircuitBreaker_of service kwargs) (reg !! service) /\
  get_breaker service again reg1 = (b, reg1) /\
  (forall other : string, other <> service -> reg1 !! other = reg !! other) /\
  (named reg -> named reg1).
Proof.
  unfold get_breaker. destruct (reg !! service) as [b0|] eqn:Hs; cbn [fst snd].
  - rewrite Hs. repeat split; done.
  - rewrite lookup_insert_eq. cbn. repeat split; try done.
    + intros other Hne. by rewrite lookup_insert_ne.
    + intros Hnamed k b Hk.
      destruct (decide (service = k)) as [<-|Hne].
      * rewrite lookup_insert_eq in Hk. by simplify_eq.
      * rewrite lookup_insert_ne in Hk by done. by apply Hnamed.
Qed.

Lemma get_breaker_gets_or_creates_witness :
  get_breaker "payments"
    {| kw_failure_threshold := Some 1; kw_recovery_timeout := None;
       kw_success_threshold := None |}
    (snd (get_breaker "payments"
            {| kw_failure_threshold := Some 3; kw_recovery_timeout := Some 10;
               kw_success_threshold := Some 2 |} ∅))
  = (payments, {[ "payments" := payments ]}) /\
  named ({[ "payments" := payments ]} : gmap string CircuitBreaker).
Proof.
  destruct (get_breaker_gets_or_creates "payments"
              {| kw_failure_threshold := Some 3; kw_recovery_timeout := Some 10;
                 kw_success_threshold := Some 2 |}
              {| kw_failure_threshold := Some 1; kw_recovery_timeout := None;
                 kw_success_threshold := None |} ∅)
    as (_ & _ & Hagain & _ & Hnamed).
  split.
  - exact Hagain.
  - apply Hnamed. intros k b Hk. rewrite lookup_empty in Hk. discriminate.
Defined.

Lemma run_service_stored {T} (service : string)
    (script : list (Kwargs * Attempt T)) :
  forall (reg : gmap string CircuitBreaker) (b : CircuitBreaker) (w : World),
    reg !! service = Some b ->
    run_service service script (reg, w) =
      (fst (run (script.*2) (b, w)),
       (<[service := breaker_of (run (script.*2) (b, w))]> reg,
        world_of (run (script.*2) (b, w)))).
Proof.
  induction script as [|[kw a] rest IH]; intros reg b w Hs.
  - cbn. unfold breaker_of, world_of. cbn. by rewrite insert_id.
  - cbn [run_service fmap list_fmap run snd]. unfold call_service, attempt.
    cbn [fst snd]. unfold get_breaker. rewrite Hs.
    destruct (call b (op a) (sleep (wait a) w)) as [[r b1] w1].
    rewrite (IH (<[service := b1]> reg) b1 w1) by apply lookup_insert_eq.
    destruct (run (rest.*2) (b1, w1)) as [rs [b2 w2]].
    unfold breaker_of, world_of. cbn [fst snd].
    by rewrite insert_insert_eq.
Qed.

Lemma run_keeps_name {T} (script : list (Attempt T)) :
  forall (b : CircuitBreaker) (w : World),
    name (breaker_of (run script (b, w))) = name b.
Proof.
  induction script as [|a rest IH]; intros b w; [done|].
  cbn [run]. unfold attempt. cbn [fst snd].
  pose proof (call_keeps_name b (op a) (sleep (wait a) w)) as Hn.
  destruct (call b (op a) (sleep (wait a) w)) as [[r b1] w1].
  cbn [fst snd] in Hn. specialize (IH b1 w1).
  destruct (run rest (b1, w1)) as [rs [b2 w2]].
  unfold breaker_of in *. cbn [fst snd] in *. congruence.
Qed.

(** X6. Calls that reach a service through the registry behave as calls
    on one breaker: the results and the world are those of running the
    same operations on the breaker that the first [get_breaker] returns,
    the registry ends with that breaker as it is after the last call, the
    keyword arguments of the later calls are ignored, the breakers of the
    other services are not touched, and every breaker stays named after
    its key. *)
Theorem registry_calls_share_one_breaker {T} (service : string)
    (kwargs : Kwargs) (a : Attempt T) (rest : list (Kwargs * Attempt T))
    (reg : gmap string CircuitBreaker) (w : World) :
  let b0 := fst (get_breaker service kwargs reg) in
  let direct := run (a :: rest.*2) (b0, w) in
  run_service service ((kwargs, a) :: rest) (reg, w) =
    (fst direct, (<[service := breaker_of direct]> reg, world_of direct)) /\
  (forall other : string,
     other <> service ->
     fst (snd (run_service service ((kwargs, a) :: rest) (reg, w))) !! other =
     reg !! other) /\
  (named reg ->
   named (fst (snd (run_service service ((kwargs, a) :: rest) (reg, w))))).
Proof.
  cbn zeta.
  assert (Heq : run_service service ((kwargs, a) :: rest) (reg, w) =
    (fst (run (a :: rest.*2) (fst (get_breaker service kwargs reg), w)),
     (<[service := breaker_of
          (run (a :: rest.*2) (fst (get_breaker service kwargs reg), w))]> reg,
      world_of (run (a :: rest.*2) (fst (get_breaker service kwargs reg), w))))).
  { destruct (reg !! service) as [b|] eqn:Hs.
    - rewrite (run_service_stored service ((kwargs, a) :: rest) reg b w Hs).
      unfold get_breaker. rewrite Hs. done.
    - cbn [run_service run]. unfold call_service, attempt. cbn [fst snd].
      unfold get_breaker. rewrite Hs. cbn [fst snd].
      destruct (call (CircuitBreaker_of service kwargs) (op a)
                     (sleep (wait a) w)) as [[r b1] w1].
      rewrite (run_service_stored service rest
                 (<[service := b1]> (<[service := CircuitBreaker_of service kwargs]> reg))
                 b1 w1) by apply lookup_insert_eq.
      destruct (run (rest.*2) (b1, w1)) as [rs [b2 w2]].
      unfold breaker_of, world_of. cbn [fst snd].
      by rewrite !insert_insert_eq. }
  split; [exact Heq|]. split.
  - intros other Hne. rewrite Heq. cbn [fst snd].
    by rewrite lookup_insert_ne.
  - intros Hnamed k b. rewrite Heq. cbn [fst snd].
    destruct (decide (service = k)) as [<-|Hne].
    + rewrite lookup_insert_eq. intros Hb. simplify_eq.
      rewrite run_keeps_name. unfold get_breaker.
      destruct (reg !! service) as [b0|] eqn:Hs; cbn [fst]; [|done].
      by apply Hnamed.
    + rewrite lookup_insert_ne by done. apply Hnamed.
Qed.

Lemma registry_calls_share_one_breaker_witness :
  let kw := {| kw_failure_threshold := Some 3; kw_recovery_timeout := Some 10;
               kw_success_threshold := Some 2 |} in
  let kw' := {| kw_failure_threshold := Some 100; kw_recovery_timeout := None;
                kw_success_threshold := None |} in
  let after_calls :=
    run_service "payments" [(kw, failing 0); (kw', failing 0); (kw', failing 0)]
      (∅, boot 0) in
  fst (snd after_calls) !! "users" = None /\
  named (fst (snd after_calls)) /\
  (state <$> fst (snd after_calls) !! "payments") = Some OPEN.
Proof.
  intros kw kw' after_calls.
  destruct (registry_calls_share_one_breaker "payments" kw (failing 0)
              [(kw', failing 0); (kw', failing 0)] ∅ (boot 0))
    as (Heq & Hother & Hnamed).
  split; [|split].
  - apply (Hother "users"). discriminate.
  - apply Hnamed. intros k b Hk. rewrite lookup_empty in Hk. discriminate.
  - subst after_calls. rewrite Heq. cbn [fst snd].
    rewrite lookup_insert_eq. vm_compute. reflexivity.
Defined.

End RegistryFacts.

(** ** Further properties of the saga coordinator *)

Module SagaMore.
Import Sagas SagaSpec SagaLog SagaFacts.

(** X7. [create_saga] returns the identifier drawn, and [get_saga] on it
    then finds a saga with the order, the user and the items given, status
    [PENDING], no step and no compensation; the sagas stored under other
    identifiers are as before, nothing is published, and one line is
    logged. *)
Theorem create_saga_then_get_saga (uuid4 oid : string) (uid : Z)
    (its : list Json) (w : World) :
  exists w',
    create_saga uuid4 oid uid its w = (Ok uuid4, w') /\
    get_saga uuid4 w' =
      Some {| saga_id := uuid4; order_id := oid; user_id := uid;
              items := its; status := PENDING; steps := [];
              compensations := [] |} /\
    (forall sid : string, sid <> uuid4 -> get_saga sid w' = get_saga sid w) /\
    publishes w' = publishes w /\ exchange w' = exchange w /\
    records w' = records w ++ [created uuid4 oid].
Proof.
  unfold create_saga. run_m. eexists. split; [reflexivity|].
  unfold get_saga. saga_simpl. rewrite lookup_insert_eq.
  repeat split; try done. intros sid Hne. by rewrite lookup_insert_ne.
Qed.

Lemma create_saga_then_get_saga_witness :
  get_saga "saga-1"
    (after (create_saga "saga-2" "O2" 2 []) 
           (after (create_saga "saga-1" "O1" 1 [JStr "sku-A"]) (boot reliable)))
  = Some {| saga_id := "saga-1"; order_id := "O1"; user_id := 1;
            items := [JStr "sku-A"]; status := PENDING; steps := [];
            compensations := [] |}.
Proof.
  destruct (create_saga_then_get_saga "saga-2" "O2" 2 []
              (after (create_saga "saga-1" "O1" 1 [JStr "sku-A"]) (boot reliable)))
    as (w' & Hrun & _ & Hother & _).
  unfold after at 1. rewrite Hrun. cbn [snd].
  rewrite (Hother "saga-1") by discriminate.
  vm_compute. reflexivity.
Defined.

(** X8. Calls of [advance_saga] for identifiers that are not in the
    store return without raising and only log: after any sequence of them
    the store, the calls of [_publish] and the exchange are as before, and
    the log has one warning more per call, in the order of the calls,
    whatever steps and success flags were passed. *)
Theorem advance_unknown_saga_only_warns (l : list Advance) (w : World) :
  Forall (fun a => get_saga (adv_saga_id a) w = None) l ->
  after (advance_all l) w =
    {| _saga_store := _saga_store w; broker := broker w;
       publishes := publishes w; exchange := exchange w;
       records := records w ++ ((fun a => unknown_saga (adv_saga_id a)) <$> l) |} /\
  Forall (fun r => level r = WARNING)
         ((fun a => unknown_saga (adv_saga_id a)) <$> l).
Proof.
  intros Hall. split.
  - revert w Hall. induction l as [|a l IH]; intros w Hall.
    + cbn. rewrite app_nil_r. by destruct w.
    + apply Forall_cons in Hall as [Ha Hl].
      rewrite after_advance_all_cons.
      assert (H1 : after (advance a) w =
                {| _saga_store := _saga_store w; broker := broker w;
                   publishes := publishes w; exchange := exchange w;
                   records := records w ++ [unknown_saga (adv_saga_id a)] |}).
      { unfold after, advance, advance_saga. unfold get_saga in Ha.
        rewrite Ha. by run_m. }
      rewrite H1, IH by exact Hl. saga_simpl.
      by rewrite fmap_cons, <- app_assoc.
  - apply Forall_fmap, Forall_forall. done.
Qed.

Lemma advance_unknown_saga_only_warns_witness :
  after (advance_all
           [{| adv_saga_id := "ghost"; adv_step := "charge_payment";
               adv_success := false; adv_payload := None |};
            {| adv_saga_id := "phantom"; adv_step := "confirm_order";
               adv_success := true; adv_payload := None |}])
        (boot down) =
    {| _saga_store := ∅; broker := down; publishes := []; exchange := [];
       records := [unknown_saga "ghost"; unknown_saga "phantom"] |}.
Proof.
  destruct (advance_unknown_saga_only_warns
              [{| adv_saga_id := "ghost"; adv_step := "charge_payment";
                  adv_success := false; adv_payload := None |};
               {| adv_saga_id := "phantom"; adv_step := "confirm_order";
                  adv_success := true; adv_payload := None |}]
              (boot down)) as [Hrun _].
  - repeat constructor.
  - exact Hrun.
Defined.

Lemma records_for_cons sid a l :
  records_for sid (a :: l) =
  if decide (adv_saga_id a = sid)
  then record_of (adv_step a) (adv_success a) (adv_payload a)
       :: records_for sid l
  else records_for sid l.
Proof.
  unfold records_for. rewrite filter_cons. by case_decide.
Qed.

(** The store after one [advance_saga], by whether the saga is known. *)
Lemma advance_known a w saga :
  _saga_store w !! adv_saga_id a = Some saga ->
  let saga1 :=
    steps_append (record_of (adv_step a) (adv_success a) (adv_payload a)) saga in
  _saga_store (after (advance a) w) =
    <[adv_saga_id a :=
        set_status
          (if adv_success a then
             if decide (all_steps ⊆ list_to_set (successful_steps saga1))
             then COMPLETED else RUNNING
           else COMPENSATED) saga1]> (_saga_store w) /\
  (adv_success a = true ->
   publishes (after (advance a) w) = publishes w /\
   exchange (after (advance a) w) = exchange w).
Proof.
  intros Hs saga1. subst saga1. unfold advance, after.
  destruct (adv_success a).
  - destruct (advance_saga_succeeded _ (adv_step a) (adv_payload a) _ _ Hs)
      as (w' & H & Hst & (_ & Hp & He)).
    rewrite H. cbn [snd]. split; [exact Hst|]. intros _.
    cbn in He. rewrite !app_nil_r in *. done.
  - destruct (advance_saga_failed _ (adv_step a) (adv_payload a) _ _ Hs)
      as (w' & H & Hst & _).
    rewrite H. cbn [snd]. split; [exact Hst|]. discriminate.
Qed.

Lemma advance_unknown a w :
  _saga_store w !! adv_saga_id a = None ->
  _saga_store (after (advance a) w) = _saga_store w /\
  publishes (after (advance a) w) = publishes w /\
  exchange (after (advance a) w) = exchange w.
Proof.
  intros Hs. unfold advance, after.
  destruct (advance_saga_unknown _ (adv_step a) (adv_success a)
              (adv_payload a) _ Hs) as (w' & H & Hst & (_ & Hp & He)).
  rewrite H. cbn [snd]. cbn in He. rewrite !app_nil_r in *. done.
Qed.

(** The step log after one call. *)
Lemma advance_one_steps (a : Advance) (w : World) (sid : string) (saga : Saga) :
  get_saga sid w = Some saga ->
  exists saga',
    get_saga sid (after (advance a) w) = Some saga' /\
    steps saga' = steps saga ++ records_for sid [a].
Proof.
  unfold get_saga. intros Hs. rewrite records_for_cons.
  destruct (decide (adv_saga_id a = sid)) as [Hid|Hne].
  - rewrite <- Hid in Hs. destruct (advance_known a w saga Hs) as [Heq _].
    rewrite <- Hid, Heq, lookup_insert_eq.
    eexists. split; [reflexivity|]. by saga_simpl.
  - exists saga. split; [|by rewrite app_nil_r].
    destruct (_saga_store w !! adv_saga_id a) as [saga0|] eqn:Hs0.
    + destruct (advance_known a w saga0 Hs0) as [Heq _].
      rewrite Heq. by rewrite lookup_insert_ne.
    + destruct (advance_unknown a w Hs0) as [Heq _]. by rewrite Heq.
Qed.

(** X9. The step log of a saga only grows, by one record per call that
    names the saga: after any sequence of [advance_saga] calls it is the
    old log followed by the records of the calls for this saga, in the
    order of the calls, successful or not. *)
Theorem steps_log_is_append_only (l : list Advance) (w : World)
    (sid : string) (saga : Saga) :
  get_saga sid w = Some saga ->
  exists saga',
    get_saga sid (after (advance_all l) w) = Some saga' /\
    steps saga' = steps saga ++ records_for sid l.
Proof.
  revert w saga. induction l as [|a l IH]; intros w saga Hs.
  - exists saga. split; [exact Hs|]. cbn. by rewrite app_nil_r.
  - rewrite after_advance_all_cons.
    destruct (advance_one_steps a w sid saga Hs) as (saga1 & Hs1 & Hsteps1).
    destruct (IH _ saga1 Hs1) as (saga' & Hget & Hsteps).
    exists saga'. split; [done|].
    rewrite Hsteps, Hsteps1, <- app_assoc. f_equal.
    rewrite !records_for_cons. by case_decide.
Qed.

Lemma steps_log_is_append_only_witness :
  exists saga',
    get_saga "saga-1"
      (after (advance_all
                [{| adv_saga_id := "saga-1"; adv_step := "reserve_inventory";
                    adv_success := true; adv_payload := None |};
                 {| adv_saga_id := "saga-2"; adv_step := "reserve_inventory";
                    adv_success := true; adv_payload := None |};
                 {| adv_saga_id := "saga-1"; adv_step := "charge_payment";
                    adv_success := false; adv_payload := None |}])
             (after (create_saga "saga-1" "O1" 1 [JStr "sku-A"]) (boot reliable)))
    = Some saga' /\
    steps saga' =
      [record_of "reserve_inventory" true None;
       record_of "charge_payment" false None].
Proof.
  destruct (steps_log_is_append_only
              [{| adv_saga_id := "saga-1"; adv_step := "reserve_inventory";
                  adv_success := true; adv_payload := None |};
               {| adv_saga_id := "saga-2"; adv_step := "reserve_inventory";
                  adv_success := true; adv_payload := None |};
               {| adv_saga_id := "saga-1"; adv_step := "charge_payment";
                  adv_success := false; adv_payload := None |}]
              (after (create_saga "saga-1" "O1" 1 [JStr "sku-A"]) (boot reliable))
              "saga-1"
              {| saga_id := "saga-1"; order_id := "O1"; user_id := 1;
                 items := [JStr "sku-A"]; status := PENDING; steps := [];
                 compensations := [] |})
    as (saga' & Hget & Hsteps).
  - vm_compute. reflexivity.
  - exists saga'. split; [exact Hget|]. rewrite Hsteps. vm_compute.
    reflexivity.
Defined.

Lemma advance_other a w sid :
  adv_saga_id a <> sid ->
  _saga_store (after (advance a) w) !! sid = _saga_store w !! sid.
Proof.
  intros Hne.
  destruct (_saga_store w !! adv_saga_id a) as [saga0|] eqn:Hs0.
  - destruct (advance_known a w saga0 Hs0) as [Heq _].
    rewrite Heq. by rewrite lookup_insert_ne.
  - destruct (advance_unknown a w Hs0) as [Heq _]. by rewrite Heq.
Qed.

(** X10. Sagas do not touch each other: calls of [advance_saga] that name
    other identifiers, known or not, successful or not, leave the entry of
    a saga exactly as it is, status and step log included. *)
Theorem advance_leaves_other_sagas (l : list Advance) (w : World)
    (sid : string) :
  Forall (fun a => adv_saga_id a <> sid) l ->
  get_saga sid (after (advance_all l) w) = get_saga sid w.
Proof.
  unfold get_saga. revert w.
  induction l as [|a l IH]; intros w Hall; [done|].
  apply Forall_cons in Hall as [Ha Hl].
  rewrite after_advance_all_cons, IH by done. by apply advance_other.
Qed.

Lemma advance_leaves_other_sagas_witness :
  get_saga "saga-1"
    (after (advance_all
              [{| adv_saga_id := "saga-2"; adv_step := "reserve_inventory";
                  adv_success := false; adv_payload := None |};
               {| adv_saga_id := "ghost"; adv_step := "charge_payment";
                  adv_success := true; adv_payload := None |}])
           (after (create_saga "saga-1" "O1" 1 [JStr "sku-A"] ;;
                   create_saga "saga-2" "O2" 2 [])
                  (boot reliable)))
  = get_saga "saga-1"
      (after (create_saga "saga-1" "O1" 1 [JStr "sku-A"] ;;
              create_saga "saga-2" "O2" 2 [])
             (boot reliable)).
Proof.
  apply (advance_leaves_other_sagas
           [{| adv_saga_id := "saga-2"; adv_step := "reserve_inventory";
               adv_success := false; adv_payload := None |};
            {| adv_saga_id := "ghost"; adv_step := "charge_payment";
               adv_success := true; adv_payload := None |}]).
  repeat constructor; discriminate.
Defined.

Lemma log_status_snoc (log : list StepRecord) (r : StepRecord) :
  log_status (log ++ [r]) =
  if success r then
    if decide (all_steps ⊆
               list_to_set (C := gset string)
                 (step <$> filter (fun s => success s = true) (log ++ [r])))
    then COMPLETED else RUNNING
  else COMPENSATED.
Proof. unfold log_status. by rewrite last_snoc. Qed.

Lemma advance_keeps_consistent a w :
  log_consistent w -> log_consistent (after (advance a) w).
Proof.
  intros Hc sid saga'. unfold get_saga.
  destruct (decide (adv_saga_id a = sid)) as [Hid|Hne].
  - destruct (_saga_store w !! adv_saga_id a) as [saga0|] eqn:Hs0.
    + destruct (advance_known a w saga0 Hs0) as [Heq _].
      rewrite Heq, <- Hid, lookup_insert_eq. intros H. simplify_eq.
      saga_simpl. rewrite log_status_snoc. cbn [success record_of].
      reflexivity.
    + destruct (advance_unknown a w Hs0) as [Heq _].
      rewrite Heq. apply Hc.
  - rewrite advance_other by done. apply Hc.
Qed.

(** X11. Calls made one after the other, each returning before the next
    starts. After every such call the status of each stored saga is the
    one its step log stands for: a fresh process has this, and
    [create_saga] and any sequence of [advance_saga] calls keep it. The
    status is then [PENDING] for an empty log, [COMPENSATED] when the last
    record is a failure, and otherwise [COMPLETED] or [RUNNING] by whether
    the three required steps have a successful record. So between such
    calls a stored saga is neither [FAILED] nor [COMPENSATING], and it is
    [PENDING] exactly when it has no step. Nothing is said of what another
    coroutine reads while a call is suspended in [_publish]. *)
Theorem status_follows_log :
  (forall b : nat -> option Exception, log_consistent (boot b)) /\
  (forall (w : World) (uuid4 oid : string) (uid : Z) (its : list Json),
     log_consistent w ->
     log_consistent (after (create_saga uuid4 oid uid its) w)) /\
  (forall (l : list Advance) (w : World),
     log_consistent w -> log_consistent (after (advance_all l) w)) /\
  (forall (w : World) (sid : string) (saga : Saga),
     log_consistent w ->
     get_saga sid w = Some saga ->
     status saga <> FAILED /\ status saga <> COMPENSATING /\
     (status saga = PENDING <-> steps saga = [])).
Proof.
  split; [|split; [|split]].
  - intros b sid saga. unfold get_saga, boot. cbn.
    rewrite lookup_empty. discriminate.
  - intros w uuid4 oid uid its Hc sid saga.
    unfold after, create_saga. run_m. unfold get_saga. saga_simpl.
    destruct (decide (uuid4 = sid)) as [<-|Hne].
    + rewrite lookup_insert_eq. intros H. by simplify_eq.
    + rewrite lookup_insert_ne by done. apply Hc.
  - induction l as [|a l IH]; intros w Hc; [exact Hc|].
    rewrite after_advance_all_cons. apply IH. by apply advance_keeps_consistent.
  - intros w sid saga Hc Hs. rewrite (Hc sid saga Hs).
    unfold log_status.
    destruct (last (steps saga)) as [r|] eqn:Hlast.
    + assert (Hne : steps saga <> []).
      { intros Hnil. rewrite Hnil in Hlast. discriminate. }
      destruct (success r); [destruct (decide _)|];
        (split; [discriminate|]); (split; [discriminate|]);
        split; intros; done.
    + apply last_None in Hlast.
      split; [discriminate|]. split; [discriminate|]. done.
Qed.

Lemma status_follows_log_witness :
  log_consistent
    (after (advance_all
              [{| adv_saga_id := "saga-1"; adv_step := "reserve_inventory";
                  adv_success := true; adv_payload := None |};
               {| adv_saga_id := "saga-1"; adv_step := "charge_payment";
                  adv_success := false; adv_payload := None |}])
           (after (create_saga "saga-1" "O1" 1 [JStr "sku-A"]) (boot reliable))) /\
  forall saga : Saga,
    get_saga "saga-1"
      (after (advance_all
                [{| adv_saga_id := "saga-1"; adv_step := "reserve_inventory";
                    adv_success := true; adv_payload := None |};
                 {| adv_saga_id := "saga-1"; adv_step := "charge_payment";
                    adv_success := false; adv_payload := None |}])
             (after (create_saga "saga-1" "O1" 1 [JStr "sku-A"]) (boot reliable)))
    = Some saga ->
    status saga <> FAILED /\ status saga <> COMPENSATING.
Proof.
  destruct status_follows_log as (Hboot & Hcreate & Hadv & Hsee).
  pose proof (Hadv
             [{| adv_saga_id := "saga-1"; adv_step := "reserve_inventory";
                 adv_success := true; adv_payload := None |};
              {| adv_saga_id := "saga-1"; adv_step := "charge_payment";
                 adv_success := false; adv_payload := None |}]
             (after (create_saga "saga-1" "O1" 1 [JStr "sku-A"]) (boot reliable))
             (Hcreate (boot reliable) "saga-1" "O1" 1 [JStr "sku-A"]
                      (Hboot reliable))) as Hc.
  split; [exact Hc|].
  intros saga Hs. destruct (Hsee _ "saga-1" saga Hc Hs) as (H1 & H2 & _).
  split; [exact H1|exact H2].
Defined.

Lemma advance_keeps_unknown a w sid :
  get_saga sid w = None -> get_saga sid (after (advance a) w) = None.
Proof. apply advance_step_absent. Qed.

(** X12. Only a failure reported for a known saga publishes. Over a
    sequence of [advance_saga] calls each of which reports a success or
    names a saga that is not stored, [_publish] is never called and the
    exchange receives nothing. *)
Theorem only_known_failures_publish (l : list Advance) (w : World) :
  Forall (fun a => adv_success a = true \/ get_saga (adv_saga_id a) w = None) l ->
  publishes (after (advance_all l) w) = publishes w /\
  exchange (after (advance_all l) w) = exchange w.
Proof.
  revert w. induction l as [|a l IH]; intros w Hall; [done|].
  apply Forall_cons in Hall as [Ha Hl].
  rewrite after_advance_all_cons.
  assert (Hstep : publishes (after (advance a) w) = publishes w /\
                  exchange (after (advance a) w) = exchange w).
  { destruct (_saga_store w !! adv_saga_id a) as [saga0|] eqn:Hs0.
    - destruct Ha as [Hok|Hnone]; [|unfold get_saga in Hnone; congruence].
      destruct (advance_known a w saga0 Hs0) as [_ Hpub]. by apply Hpub.
    - destruct (advance_unknown a w Hs0) as (_ & Hp & He). done. }
  destruct Hstep as [Hp He].
  destruct (IH (after (advance a) w)) as [Hp' He'].
  { eapply Forall_impl; [exact Hl|]. intros b [Hok|Hnone]; [by left|].
    right. by apply advance_keeps_unknown. }
  split; congruence.
Qed.

Lemma only_known_failures_publish_witness :
  publishes
    (after (advance_all
              [{| adv_saga_id := "saga-1"; adv_step := "reserve_inventory";
                  adv_success := true; adv_payload := None |};
               {| adv_saga_id := "ghost"; adv_step := "charge_payment";
                  adv_success := false; adv_payload := None |}])
           (after (create_saga "saga-1" "O1" 1 [JStr "sku-A"]) (boot reliable)))
  = publishes (after (create_saga "saga-1" "O1" 1 [JStr "sku-A"]) (boot reliable)).
Proof.
  apply (only_known_failures_publish
           [{| adv_saga_id := "saga-1"; adv_step := "reserve_inventory";
               adv_success := true; adv_payload := None |};
            {| adv_saga_id := "ghost"; adv_step := "charge_payment";
               adv_success := false; adv_payload := None |}]).
  constructor; [left; reflexivity|].
  constructor; [right; vm_compute; reflexivity|constructor].
Defined.

Lemma required_done_grows (saga saga' : Saga) (more : list StepRecord) :
  steps saga' = steps saga ++ more ->
  required_done saga -> required_done saga'.
Proof.
  intros Hsteps Hreq r. destruct (Hreq r) as (rec & Hin & Hst & Hok).
  exists rec. rewrite Hsteps, elem_of_app. tauto.
Qed.

Lemma advance_all_keeps_required_done (l : list Advance) :
  forall (w : World) (sid : string) (saga : Saga),
    get_saga sid w = Some saga -> required_done saga ->
    exists saga',
      get_saga sid (after (advance_all l) w) = Some saga' /\
      required_done saga'.
Proof.
  induction l as [|a l IH]; intros w sid saga Hs Hreq; [eauto|].
  rewrite after_advance_all_cons.
  destruct (advance_one_steps a w sid saga Hs) as (saga1 & Hs1 & Hsteps1).
  apply (IH _ sid saga1 Hs1). eapply required_done_grows; eauto.
Qed.

(** X13. Completion is kept by the log. Once each of the three required
    steps has a successful record, whatever [advance_saga] calls follow,
    for this saga or others, successful or not, the next call that reports
    a success for this saga leaves it [COMPLETED]. *)
Theorem completed_log_completes_again (l : list Advance) (w : World)
    (sid st : string) (pl : option Dict) (saga : Saga) :
  get_saga sid w = Some saga ->
  required_done saga ->
  status_of sid (after (advance_saga sid st true pl) (after (advance_all l) w))
  = Some COMPLETED.
Proof.
  intros Hs Hreq.
  destruct (advance_all_keeps_required_done l w sid saga Hs Hreq)
    as (saga' & Hget & Hreq').
  destruct (advance_saga_succeeded sid st pl _ saga' Hget)
    as (w' & Hrun & Hst & _).
  unfold after at 1. rewrite Hrun. cbn [snd].
  unfold status_of, get_saga. rewrite Hst, lookup_insert_eq.
  cbn [fmap option_fmap option_map]. saga_simpl.
  rewrite decide_True; [done|].
  apply all_steps_subseteq.
  eapply (required_done_grows saga'); [|exact Hreq']. reflexivity.
Qed.

Lemma completed_log_completes_again_witness :
  status_of "saga-1"
    (after (advance_saga "saga-1" "ship" true None)
       (after (advance_all
                 [{| adv_saga_id := "saga-1"; adv_step := "charge_payment";
                     adv_success := false; adv_payload := None |}])
              (after (create_saga "saga-1" "O1" 1 [JStr "sku-A"] ;;
                      advance_saga "saga-1" "reserve_inventory" true None ;;
                      advance_saga "saga-1" "charge_payment" true None ;;
                      advance_saga "saga-1" "confirm_order" true None)
                     (boot reliable))))
  = Some COMPLETED.
Proof.
  apply (completed_log_completes_again
           [{| adv_saga_id := "saga-1"; adv_step := "charge_payment";
               adv_success := false; adv_payload := None |}]
           (after (create_saga "saga-1" "O1" 1 [JStr "sku-A"] ;;
                   advance_saga "saga-1" "reserve_inventory" true None ;;
                   advance_saga "saga-1" "charge_payment" true None ;;
                   advance_saga "saga-1" "confirm_order" true None)
                  (boot reliable))
           "saga-1" "ship" None
           {| saga_id := "saga-1"; order_id := "O1"; user_id := 1;
              items := [JStr "sku-A"]; status := COMPLETED;
              steps := [record_of "reserve_inventory" true None;
                        record_of "charge_payment" true None;
                        record_of "confirm_order" true None];
              compensations := [] |}).
  - vm_compute. reflexivity.
  - intros r.
    destruct r;
      [exists (record_of "reserve_inventory" true None)
      |exists (record_of "charge_payment" true None)
      |exists (record_of "confirm_order" true None)];
      (split; [|split; reflexivity]); cbn [steps];
      rewrite !elem_of_cons; tauto.
Defined.

(** X14. Nothing to undo. When no record with [success] true names
    [reserve_inventory] or [charge_payment] (so on an empty log, and for
    step names outside the enumeration), a failing [advance_saga] calls
    [_publish] not once, sends nothing, and leaves the saga
    [COMPENSATED] with the failed record appended. *)
Theorem failure_without_compensable_steps (w : World) (sid st : string)
    (pl : option Dict) (saga : Saga) :
  get_saga sid w = Some saga ->
  (forall r : StepRecord,
     r ∈ steps saga -> success r = true ->
     step r <> value RESERVE_INVENTORY /\ step r <> value CHARGE_PAYMENT) ->
  exists w',
    advance_saga sid st false pl w = (Ok tt, w') /\
    publishes w' = publishes w /\ exchange w' = exchange w /\
    get_saga sid w' =
      Some (set_status COMPENSATED (steps_append (record_of st false pl) saga)).
Proof.
  intros Hs Hnone.
  destruct (advance_saga_failed sid st pl w saga Hs)
    as (w' & Hrun & Hst & (_ & Hp & He)).
  assert (Hempty : compensation_messages saga = []).
  { unfold compensation_messages.
    assert (Hall : Forall (fun s => compensation_for saga s = [])
                          (reverse (successful_steps saga))).
    { apply Forall_forall. intros s Hin.
      rewrite elem_of_reverse in Hin. unfold successful_steps in Hin.
      apply list_elem_of_fmap in Hin as (r & -> & Hr).
      apply list_elem_of_filter in Hr as [Hok Hr].
      destruct (Hnone r Hr Hok) as [H1 H2].
      unfold compensation_for. by rewrite !decide_False. }
    induction Hall as [|s rest Hs0 _ IH]; [done|].
    cbn [flat_map]. by rewrite Hs0, IH. }
  rewrite Hempty in Hp, He. cbn in He. rewrite app_nil_r in Hp, He.
  exists w'. repeat (split; [done|]).
  unfold get_saga. by rewrite Hst, lookup_insert_eq.
Qed.

Lemma failure_without_compensable_steps_witness :
  exists w',
    advance_saga "saga-1" "reserve_inventory" false None
      (after (create_saga "saga-1" "O1" 1 [JStr "sku-A"]) (boot reliable))
    = (Ok tt, w') /\
    publishes w' = [] /\
    status_of "saga-1" w' = Some COMPENSATED.
Proof.
  destruct (failure_without_compensable_steps
              (after (create_saga "saga-1" "O1" 1 [JStr "sku-A"]) (boot reliable))
              "saga-1" "reserve_inventory" None
              {| saga_id := "saga-1"; order_id := "O1"; user_id := 1;
                 items := [JStr "sku-A"]; status := PENDING; steps := [];
                 compensations := [] |})
    as (w' & Hrun & Hp & _ & Hget).
  - vm_compute. reflexivity.
  - intros r Hin. cbn [steps] in Hin. by apply elem_of_nil in Hin.
  - exists w'. split; [exact Hrun|]. split.
    + rewrite Hp. vm_compute. reflexivity.
    + unfold status_of. rewrite Hget. reflexivity.
Defined.

End SagaMore.

(** ** Properties of the gateway *)

Module GatewayFacts.
Import Gateway.

Lemma prefix_append (p s : string) : String.prefix p (p +:+ s) = true.
Proof.
  induction p as [|c p IH].
  - by destruct s.
  - change (match Ascii.ascii_dec c c with
            | left _ => String.prefix p (p +:+ s)
            | right _ => false
            end = true).
    destruct (Ascii.ascii_dec c c); [exact IH|done].
Qed.

Lemma resolve_in_Some routes path service :
  resolve_in routes path = Some service ->
  exists pfx, (pfx, service) ∈ routes /\ String.prefix pfx path = true.
Proof.
  induction routes as [|[p s] rest IH]; cbn; [done|].
  destruct (String.prefix p path) eqn:Hp.
  - intros H. simplify_eq. exists p. split; [apply list_elem_of_here|done].
  - intros H. destruct (IH H) as (pfx & Hin & Hpfx).
    exists pfx. split; [by apply list_elem_of_further|done].
Qed.

Lemma resolve_in_None routes path :
  resolve_in routes path = None <->
  forall pfx service, (pfx, service) ∈ routes -> String.prefix pfx path = false.
Proof.
  induction routes as [|[p s] rest IH]; cbn.
  - split; [|done]. intros _ pfx service Hin. by apply elem_of_nil in Hin.
  - destruct (String.prefix p path) eqn:Hp.
    + split; [done|]. intros H.
      specialize (H p s (list_elem_of_here _ _)). congruence.
    + rewrite IH. split.
      * intros H pfx service Hin. apply elem_of_cons in Hin as [Heq|Hin].
        -- by simplify_eq.
        -- by apply (H pfx service).
      * intros H pfx service Hin. apply (H pfx service).
        by apply list_elem_of_further.
Qed.

Lemma routes_name_services (pfx service : string) :
  (pfx, service) ∈ ROUTES ->
  service = "users" \/ service = "orders" \/ service = "notifications".
Proof.
  unfold ROUTES. rewrite !elem_of_cons, elem_of_nil.
  intros [H|[H|[H|[H|[]]]]]; simplify_eq; tauto.
Qed.

(** X15. [_resolve] answers with the service of a route whose prefix
    starts the path, and with [None] exactly when no prefix of the table
    does. A service it names is not the empty string and is a key of
    [SERVICES], whatever the environment holds, so the look-up of its
    address in [proxy] finds one. *)
Theorem resolve_names_a_routed_service (path : string) :
  (forall service : string,
     _resolve path = Some service ->
     (exists pfx, (pfx, service) ∈ ROUTES /\ String.prefix pfx path = true) /\
     service <> "" /\
     forall environ : gmap string string,
       is_Some (SERVICES environ !! service)) /\
  (_resolve path = None <->
   forall pfx service,
     (pfx, service) ∈ ROUTES -> String.prefix pfx path = false).
Proof.
  split; [|apply resolve_in_None].
  intros service Hres.
  destruct (resolve_in_Some _ _ _ Hres) as (pfx & Hin & Hpfx).
  split; [eauto|].
  destruct (routes_name_services pfx service Hin) as [-> | [-> | ->]];
    (split; [discriminate|]); intros environ; unfold SERVICES.
  - rewrite lookup_insert_ne, lookup_insert_ne, lookup_insert_eq by done. eauto.
  - rewrite lookup_insert_ne, lookup_insert_eq by done. eauto.
  - rewrite lookup_insert_eq. eauto.
Qed.

Lemma resolve_names_a_routed_service_witness :
  is_Some (SERVICES ∅ !! "orders") /\
  String.prefix "/orders" "/health" = false.
Proof.
  destruct (resolve_names_a_routed_service "/orders/42") as [Hsome _].
  destruct (resolve_names_a_routed_service "/health") as [_ Hnone].
  split.
  - destruct (Hsome "orders") as (_ & _ & Hkey).
    + vm_compute. reflexivity.
    + apply Hkey.
  - apply (proj1 Hnone) with (service := "orders").
    + vm_compute. reflexivity.
    + unfold ROUTES. rewrite !elem_of_cons. tauto.
Defined.

(** X16. The table matches the first characters of the path, not whole
    segments: every path that starts with [/users] or with [/token] goes
    to [users], every path that starts with [/orders] to [orders], every
    path that starts with [/notifications] to [notifications], whatever
    follows. *)
Theorem resolve_matches_first_characters (rest : string) :
  _resolve ("/users" +:+ rest) = Some "users" /\
  _resolve ("/token" +:+ rest) = Some "users" /\
  _resolve ("/orders" +:+ rest) = Some "orders" /\
  _resolve ("/notifications" +:+ rest) = Some "notifications".
Proof.
  assert (Hno : forall a b : string,
            String.prefix a b = false ->
            forall routes service,
              resolve_in ((a, service) :: routes) b = resolve_in routes b).
  { intros a b Hab routes service. cbn [resolve_in]. by rewrite Hab. }
  unfold _resolve, ROUTES. repeat split.
  - cbn [resolve_in]. by rewrite prefix_append.
  - rewrite Hno by (vm_compute; reflexivity).
    cbn [resolve_in]. by rewrite prefix_append.
  - rewrite !Hno by (vm_compute; reflexivity).
    cbn [resolve_in]. by rewrite prefix_append.
  - rewrite !Hno by (vm_compute; reflexivity).
    cbn [resolve_in]. by rewrite prefix_append.
Qed.

Lemma resolved_service_known (path service : string) :
  _resolve path = Some service ->
  service <> "" /\
  forall environ : gmap string string, is_Some (SERVICES environ !! service).
Proof.
  intros Hres.
  destruct (resolve_in_Some _ _ _ Hres) as (pfx & Hin & _).
  destruct (routes_name_services pfx service Hin) as [-> | [-> | ->]];
    (split; [discriminate|]); intros environ; unfold SERVICES.
  - rewrite lookup_insert_ne, lookup_insert_ne, lookup_insert_eq by done. eauto.
  - rewrite lookup_insert_ne, lookup_insert_eq by done. eauto.
  - rewrite lookup_insert_eq. eauto.
Qed.

(** X17. What [proxy] does with a path. When no route matches, it raises
    404 and sends nothing: the world is as before. When a route matches,
    it never fails on the look-up of the address and sends exactly one
    request, to the address of the service followed by the full path, with
    the method, the body and the query of the incoming request and with
    its headers except [host]; the answer comes back with its status,
    content and headers as they are, a refused connection is a 503, a
    time-out a 504, and any other exception is not caught. *)
Theorem proxy_forwards_or_404 (path : string) (request : Request) (w : World) :
  (_resolve ("/" +:+ path) = None ->
   proxy path request w =
     (HTTPException 404 (no_route_for ("/" +:+ path)), w)) /\
  (forall service : string,
     _resolve ("/" +:+ path) = Some service ->
     exists base rq,
       SERVICES (environ w) !! service = Some base /\
       rq = {| sent_method := method request;
               sent_url := base +:+ "/" +:+ path;
               sent_headers := delete "host" (headers request);
               sent_content := body request;
               sent_params := query_params request |} /\
       sent_headers rq !! "host" = None /\
       (forall k : string,
          k <> "host" -> sent_headers rq !! k = headers request !! k) /\
       sent (snd (proxy path request w)) = sent w ++ [rq] /\
       fst (proxy path request w) =
         match upstream w (length (sent w)) rq with
         | Replied resp =>
             Response (reply_content resp) (reply_status_code resp)
                      (reply_headers resp)
                      (reply_headers resp !! "content-type")
         | ConnectError => HTTPException 503 (service_unavailable service)
         | TimeoutException => HTTPException 504 (service_timed_out service)
         | OtherError e => Unhandled e
         end).
Proof.
  split.
  - intros Hres. unfold proxy. by rewrite Hres.
  - intros service Hres.
    destruct (resolved_service_known _ _ Hres) as [Hne Hkey].
    destruct (Hkey (environ w)) as [base Hbase].
    eexists base, _. split; [exact Hbase|]. split; [reflexivity|].
    cbn [sent_headers]. split; [apply lookup_delete_eq|].
    split; [intros k Hk; by rewrite lookup_delete_ne|].
    unfold proxy. rewrite Hres, decide_False, Hbase by done.
    unfold client_request.
    destruct (upstream w (length (sent w)) _); cbn; done.
Qed.

Lemma proxy_forwards_or_404_witness :
  let request := {| method := "GET";
                    headers := {[ "host" := "gateway"; "accept" := "*/*" ]};
                    query_params := ∅; body := "" |} in
  let w := {| environ := ∅; upstream := fun _ _ => ConnectError;
              sent := []; records := [] |} in
  proxy "health" request w =
    (HTTPException 404 (no_route_for "/health"), w) /\
  fst (proxy "orders/42" request w) =
    HTTPException 503 (service_unavailable "orders") /\
  (sent_url <$> sent (snd (proxy "orders/42" request w))) =
    ["http://localhost:8002/orders/42"].
Proof.
  intros request w.
  destruct (proxy_forwards_or_404 "health" request w) as [Hnone _].
  destruct (proxy_forwards_or_404 "orders/42" request w) as [_ Hsome].
  split; [|split].
  - apply Hnone. vm_compute. reflexivity.
  - destruct (Hsome "orders") as (base & rq & _ & _ & _ & _ & _ & Hout).
    + vm_compute. reflexivity.
    + rewrite Hout. reflexivity.
  - destruct (Hsome "orders") as (base & rq & Hbase & Hrq & _ & _ & Hsent & _).
    + vm_compute. reflexivity.
    + rewrite Hsent, Hrq. cbn [sent fmap list_fmap app sent_url].
      assert (base = "http://localhost:8002") as ->.
      { vm_compute in Hbase. congruence. }
      reflexivity.
Defined.

End GatewayFacts.

(** ** Properties of the orders service *)

Module OrdersFacts.
Import Orders OrdersSpec.

Lemma substring_all (s : string) : String.substring 0 (String.length s) s = s.
Proof. induction s as [|c s IH]; cbn; [done|by rewrite IH]. Qed.

Lemma prefix_of_append (p s : string) : String.prefix p (p +:+ s) = true.
Proof.
  induction p as [|c p IH].
  - by destruct s.
  - change (match Ascii.ascii_dec c c with
            | left _ => String.prefix p (p +:+ s)
            | right _ => false
            end = true).
    destruct (Ascii.ascii_dec c c); [exact IH|done].
Qed.

Lemma drop_prefix (p s : string) :
  String.substring (String.length p)
    (String.length (p +:+ s) - String.length p) (p +:+ s) = s.
Proof.
  induction p as [|c p IH].
  - change ("" +:+ s) with s. cbn [String.length].
    rewrite Nat.sub_0_r. apply substring_all.
  - change (String c p +:+ s) with (String c (p +:+ s)).
    cbn [String.length String.substring]. exact IH.
Qed.

Lemma removeprefix_of_append (p s : string) : removeprefix p (p +:+ s) = s.
Proof. unfold removeprefix. rewrite prefix_of_append. apply drop_prefix. Qed.

Lemma prefix_split (p a : string) :
  String.prefix p a = true -> a = p +:+ removeprefix p a.
Proof.
  intros Hp. unfold removeprefix. rewrite Hp. revert a Hp.
  induction p as [|c p IH]; intros a Hp.
  - change ("" +:+ ?x) with x. cbn [String.length].
    rewrite Nat.sub_0_r. by rewrite substring_all.
  - destruct a as [|c' a]; [done|].
    cbn [String.prefix] in Hp.
    destruct (Ascii.ascii_dec c c') as [<-|]; [|done].
    change (String c p +:+ ?x) with (String c (p +:+ x)).
    cbn [String.length String.substring]. f_equal. by apply IH.
Qed.

(** X18. [_require_user] reads a bearer token. Without the header, or
    with one that does not start with [Bearer ], it raises 401 [missing
    token] and does not look at any token. With [Bearer ] followed by a
    token, it hands to [jwt.decode] exactly what follows the first
    [Bearer ], and returns the claims or raises 401 [token expired] or
    [invalid token] as the decoding says. Every HTTP error it raises is a
    401, and claims are returned only for a header of that form whose
    token was decoded. *)
Theorem require_user_reads_bearer_token (jwt_decode : string -> Decoded) :
  (forall authorization : option string,
     (authorization = None \/
      exists a, authorization = Some a /\ String.prefix "Bearer " a = false) ->
     _require_user jwt_decode authorization =
       inl (HTTPException 401 "missing token")) /\
  (forall token : string,
     _require_user jwt_decode (Some ("Bearer " +:+ token)) =
       match jwt_decode token with
       | Claims user => inr user
       | ExpiredSignatureError => inl (HTTPException 401 "token expired")
       | InvalidTokenError => inl (HTTPException 401 "invalid token")
       | DecodeError e => inl (Raised e)
       end) /\
  (forall (authorization : option string) (code : Z) (detail : string),
     _require_user jwt_decode authorization = inl (HTTPException code detail) ->
     code = 401) /\
  (forall (authorization : option string) (user : gmap string Sagas.Json),
     _require_user jwt_decode authorization = inr user ->
     exists token,
       authorization = Some ("Bearer " +:+ token) /\
       jwt_decode token = Claims user).
Proof.
  split; [|split; [|split]].
  - intros authorization [->|(a & -> & Hp)]; [done|].
    unfold _require_user. rewrite Hp. by rewrite orb_true_r.
  - intros token. unfold _require_user.
    rewrite prefix_of_append, removeprefix_of_append.
    rewrite bool_decide_eq_false_2 by done. done.
  - intros authorization code detail. unfold _require_user.
    destruct authorization as [a|]; [|intros H; by simplify_eq].
    destruct (_ || _); [intros H; by simplify_eq|].
    destruct (jwt_decode _); intros H; by simplify_eq.
  - intros authorization user. unfold _require_user.
    destruct authorization as [a|]; [|done].
    destruct (bool_decide (a = "") || negb (String.prefix "Bearer " a))
      eqn:Hbad; [done|].
    apply orb_false_iff in Hbad as [_ Hp]. apply negb_false_iff in Hp.
    destruct (jwt_decode (removeprefix "Bearer " a)) eqn:Hd; try done.
    intros H. simplify_eq. exists (removeprefix "Bearer " a).
    split; [|done]. f_equal. by apply prefix_split.
Qed.

Lemma require_user_reads_bearer_token_witness :
  let decode := fun token : string =>
    if bool_decide (token = "Bearer t1")
    then Claims {[ "uid" := Sagas.JInt 7 ]} else InvalidTokenError in
  _require_user decode (Some "bearer t1") =
    inl (HTTPException 401 "missing token") /\
  _require_user decode (Some "Bearer Bearer t1") =
    inr {[ "uid" := Sagas.JInt 7 ]} /\
  _require_user decode (Some "Bearer t1") =
    inl (HTTPException 401 "invalid token").
Proof.
  intros decode.
  destruct (require_user_reads_bearer_token decode) as (Hmiss & Htok & _ & _).
  split; [|split].
  - apply Hmiss. right. exists "bearer t1". split; reflexivity.
  - exact (Htok "Bearer t1").
  - exact (Htok "t1").
Defined.

Lemma int_ne_owns (order : OrderModel) (uid : Sagas.Json) :
  int_ne (user_id order) uid = false <-> owns order uid.
Proof.
  unfold int_ne, owns.
  destruct uid as [|b|m|s|l|kv]; try (split; [done|]);
    try (intros [H|[[H _]|[H _]]]; discriminate).
  - rewrite negb_false_iff, bool_decide_eq_true. split.
    + intros H. destruct b; [right; left|right; right]; done.
    + intros [H|[[H Hu]|[H Hu]]]; simplify_eq; done.
  - rewrite negb_false_iff, bool_decide_eq_true. split.
    + intros ->. by left.
    + intros [H|[[H _]|[H _]]]; by simplify_eq.
Qed.

Lemma not_admin_false (v : option Sagas.Json) :
  not_admin v = false <-> v = Some (Sagas.JStr "admin").
Proof.
  unfold not_admin. destruct v as [[|b|m|s|l|kv]|]; try (split; done).
  rewrite negb_false_iff, bool_decide_eq_true. split; [by intros ->|].
  intros H. by simplify_eq.
Qed.

Lemma get_order_found json_loads order_id db user order uid :
  db !! order_id = Some order -> user !! "uid" = Some uid ->
  get_order json_loads order_id db user =
    if int_ne (user_id order) uid && not_admin (user !! "role")
    then inl (HTTPException 403 "access denied")
    else match json_loads (items_json order) with
         | inl e => inl (Raised e)
         | inr its => inr (response_of order its)
         end.
Proof. intros Hdb Huid. unfold get_order. by rewrite Hdb, Huid. Qed.

(** X19. The four outcomes of [get_order]. An identifier that is not in
    the table gives 404, whoever asks. For a stored order: claims without
    [uid] raise [KeyError], also when the role is [admin]; claims whose
    [uid] is the owner of the order, or whose role is [admin], get the
    order with its columns as they are and its items parsed; any other
    claims get 403. *)
Theorem get_order_outcomes (json_loads : string -> string + list Sagas.Dict)
    (order_id : string) (db : gmap string OrderModel)
    (user : gmap string Sagas.Json) :
  (db !! order_id = None ->
   get_order json_loads order_id db user =
     inl (HTTPException 404 "order not found")) /\
  (forall order : OrderModel,
     db !! order_id = Some order ->
     (user !! "uid" = None ->
      get_order json_loads order_id db user = inl (KeyError "uid")) /\
     (may_read order user ->
      get_order json_loads order_id db user =
        match json_loads (items_json order) with
        | inl e => inl (Raised e)
        | inr its => inr (response_of order its)
        end) /\
     (is_Some (user !! "uid") -> ~ may_read order user ->
      get_order json_loads order_id db user =
        inl (HTTPException 403 "access denied"))).
Proof.
  split.
  - intros Hdb. unfold get_order. by rewrite Hdb.
  - intros order Hdb. split; [|split].
    + intros Huid. unfold get_order. by rewrite Hdb, Huid.
    + intros (uid & Huid & Hok).
      rewrite (get_order_found _ _ _ _ _ _ Hdb Huid).
      destruct Hok as [Hown|Hadmin].
      * apply int_ne_owns in Hown. by rewrite Hown.
      * apply not_admin_false in Hadmin. rewrite Hadmin.
        by rewrite andb_false_r.
    + intros [uid Huid] Hno.
      rewrite (get_order_found _ _ _ _ _ _ Hdb Huid).
      destruct (int_ne (user_id order) uid) eqn:Hne.
      * destruct (not_admin (user !! "role")) eqn:Hna; [done|].
        exfalso. apply Hno. exists uid. split; [done|]. right.
        by apply not_admin_false.
      * exfalso. apply Hno. exists uid. split; [done|]. left.
        by apply int_ne_owns.
Qed.

Lemma get_order_outcomes_witness :
  let order := {| id := "o-1"; user_id := 7; status := "pending";
                  total_cents := 1200; items_json := "[]";
                  created_at := "2024-01-01T00:00:00" |} in
  let loads := fun _ : string => inr [] : string + list Sagas.Dict in
  get_order loads "o-1" {[ "o-1" := order ]}
            {[ "uid" := Sagas.JInt 7 ]} = inr (response_of order []) /\
  get_order loads "o-1" {[ "o-1" := order ]}
            {[ "uid" := Sagas.JInt 8 ]} =
    inl (HTTPException 403 "access denied") /\
  get_order loads "o-1" {[ "o-1" := order ]}
            {[ "role" := Sagas.JStr "admin" ]} = inl (KeyError "uid") /\
  get_order loads "o-2" {[ "o-1" := order ]}
            {[ "role" := Sagas.JStr "admin" ]} =
    inl (HTTPException 404 "order not found").
Proof.
  intros order loads.
  split; [|split; [|split]].
  - destruct (get_order_outcomes loads "o-1" {[ "o-1" := order ]}
                {[ "uid" := Sagas.JInt 7 ]}) as [_ Hfound].
    destruct (Hfound order) as (_ & Hread & _); [vm_compute; reflexivity|].
    apply Hread. exists (Sagas.JInt 7). split; [vm_compute; reflexivity|].
    left. left. reflexivity.
  - destruct (get_order_outcomes loads "o-1" {[ "o-1" := order ]}
                {[ "uid" := Sagas.JInt 8 ]}) as [_ Hfound].
    destruct (Hfound order) as (_ & _ & Hdeny); [vm_compute; reflexivity|].
    apply Hdeny.
    + exists (Sagas.JInt 8). vm_compute. reflexivity.
    + intros (uid & Huid & [Hown|Hadmin]).
      * vm_compute in Huid. simplify_eq.
        destruct Hown as [H|[[H _]|[H _]]]; vm_compute in H; discriminate.
      * vm_compute in Hadmin. discriminate.
  - destruct (get_order_outcomes loads "o-1" {[ "o-1" := order ]}
                {[ "role" := Sagas.JStr "admin" ]}) as [_ Hfound].
    destruct (Hfound order) as (Hkey & _ & _); [vm_compute; reflexivity|].
    apply Hkey. vm_compute. reflexivity.
  - destruct (get_order_outcomes loads "o-2" {[ "o-1" := order ]}
                {[ "role" := Sagas.JStr "admin" ]}) as [Hnone _].
    apply Hnone. vm_compute. reflexivity.
Defined.

(** X20. Through the route, an order is handed out only to the bearer of
    a token that [jwt.decode] accepts and whose claims own the order or
    carry the role [admin]; the order handed out is the stored row with
    that identifier. *)
Theorem order_only_for_owner_or_admin (jwt_decode : string -> Decoded)
    (json_loads : string -> string + list Sagas.Dict)
    (authorization : option string) (order_id : string)
    (db : gmap string OrderModel) (resp : OrderResponse) :
  get_order_route jwt_decode json_loads authorization order_id db = inr resp ->
  exists token user order its,
    authorization = Some ("Bearer " +:+ token) /\
    jwt_decode token = Claims user /\
    db !! order_id = Some order /\
    may_read order user /\
    json_loads (items_json order) = inr its /\
    resp = response_of order its.
Proof.
  unfold get_order_route. intros Hroute.
  destruct (_require_user jwt_decode authorization) as [e|user] eqn:Hauth;
    [done|].
  unfold _require_user in Hauth.
  destruct authorization as [a|]; [|done].
  destruct (bool_decide (a = "") || negb (String.prefix "Bearer " a))
    eqn:Hbad; [done|].
  apply orb_false_iff in Hbad as [_ Hp]. apply negb_false_iff in Hp.
  destruct (jwt_decode (removeprefix "Bearer " a)) eqn:Hd; try done.
  simplify_eq.
  unfold get_order in Hroute.
  destruct (db !! order_id) as [order|] eqn:Hdb; [|done].
  destruct (user !! "uid") as [uid|] eqn:Huid; [|done].
  destruct (int_ne (user_id order) uid && not_admin (user !! "role"))
    eqn:Hdeny; [done|].
  destruct (json_loads (items_json order)) as [e|its] eqn:Hl; [done|].
  simplify_eq.
  exists (removeprefix "Bearer " a), user, order, its.
  split; [f_equal; by apply prefix_split|].
  repeat (split; [done|]). split; [|done].
  exists uid. split; [done|].
  apply andb_false_iff in Hdeny as [Hown|Hadmin].
  - left. by apply int_ne_owns.
  - right. by apply not_admin_false.
Qed.

Lemma order_only_for_owner_or_admin_witness :
  let order := {| id := "o-1"; user_id := 7; status := "pending";
                  total_cents := 1200; items_json := "[]";
                  created_at := "2024-01-01T00:00:00" |} in
  let decode := fun _ : string => Claims {[ "uid" := Sagas.JInt 7 ]} in
  let loads := fun _ : string => inr [] : string + list Sagas.Dict in
  exists token user stored its,
    Some "Bearer t1" = Some ("Bearer " +:+ token) /\
    decode token = Claims user /\
    ({[ "o-1" := order ]} : gmap string OrderModel) !! "o-1" = Some stored /\
    may_read stored user /\
    loads (items_json stored) = inr its /\
    response_of order [] = response_of stored its.
Proof.
  intros order decode loads.
  apply (order_only_for_owner_or_admin decode loads (Some "Bearer t1") "o-1"
           {[ "o-1" := order ]} (response_of order [])).
  vm_compute. reflexivity.
Defined.

End OrdersFacts.
